(** * AdamUpdate: the Adam / AdaMax update policy of adam/adam_update.hpp

    A shallow embedding of class [AdamUpdate] and its two methods,
    [Initialize] and [Update], together with the accessor pairs of the four
    configuration fields.

    The class computes with [double] and with Armadillo's [arma::mat].  The
    embedding is written once, over a class [Scalar] of the arithmetic the
    source uses, and is then read at two instances:
    - [float], IEEE binary64 as Rocq's primitive floats: what the machine
      computes, executable, with NaN and infinities;
    - [xreal], exact real arithmetic with one extra value for "not a finite
      number" (division by zero, square root of a negative): what the
      recurrences mean, for the algebraic properties.                      *)

From Stdlib Require Import List Bool Arith NArith ZArith Lia Reals Lra Floats.
Import ListNotations.

Set Implicit Arguments.

(** ** Scalars *)

(** The operations on [double] that adam_update.hpp uses.  [ltb] is [<]
    (through [std::max], which [arma::max] applies to each pair of elements),
    [neqb] is [!=], and [pow x i] is [std::pow(x, (double) i)] for an index
    [i] of type [size_t]. *)
Class Scalar (T : Type) : Type := {
  zero : T;
  one : T;
  add : T -> T -> T;
  sub : T -> T -> T;
  mul : T -> T -> T;
  div : T -> T -> T;
  sqrt : T -> T;
  abs : T -> T;
  ltb : T -> T -> bool;
  neqb : T -> T -> bool;
  pow : T -> N -> T
}.

Declare Scope scalar_scope.
Delimit Scope scalar_scope with sc.
Infix "+" := add : scalar_scope.
Infix "-" := sub : scalar_scope.
Infix "*" := mul : scalar_scope.
Infix "/" := div : scalar_scope.

(** [std::max(a, b)] is [(a < b) ? b : a]. *)
Definition max {T} `{Scalar T} (a b : T) : T := if ltb a b then b else a.

(** What the two branches of [Update] rely on when the iteration index is 0:
    [std::pow(x, 0.0)] is [1.0] for every [x], [1.0 - 1.0] is [0.0], and
    [0.0 != 0.0] is false. *)
Class ZeroExponent (T : Type) `{Scalar T} : Prop := {
  pow_0 : forall x : T, pow x 0%N = one;
  sub_one_one : sub one one = zero;
  neqb_zero_zero : neqb zero zero = false
}.

Arguments ZeroExponent T {_}.

(** ** Lists of elements *)

Fixpoint zip_with {A B C : Type} (f : A -> B -> C) (l1 : list A) (l2 : list B)
  : list C :=
  match l1, l2 with
  | x :: l1', y :: l2' => f x y :: zip_with f l1' l2'
  | _, _ => []
  end.

(** ** Matrices

    [arma::mat]: the two dimensions and the elements in column-major order. *)
Record mat (T : Type) : Type := Mat {
  n_rows : nat;
  n_cols : nat;
  mem : list T
}.

Arguments Mat {T} _ _ _.

(** A default-constructed [arma::mat] is 0 x 0. *)
Definition empty_mat {T} : mat T := Mat 0 0 [].

Section Matrices.
Context {T : Type} `{Scalar T}.
Local Open Scope scalar_scope.

(** [arma::zeros<arma::mat>(rows, cols)] *)
Definition zeros (rows cols : nat) : mat T :=
  Mat rows cols (repeat zero (rows * cols)).

(** [A(k)], linear indexing. *)
Definition elem (A : mat T) (k : nat) : T := nth k (mem A) zero.

Definition same_size (A B : mat T) : bool :=
  (n_rows A =? n_rows B)%nat && (n_cols A =? n_cols B)%nat.

Definition mat_map (f : T -> T) (A : mat T) : mat T :=
  Mat (n_rows A) (n_cols A) (map f (mem A)).

(** An element-wise operation on two matrices.  Armadillo checks that the
    two sizes agree; when they do not it throws [std::logic_error] (and the
    behaviour is undefined when its checks are compiled out).  [None]
    stands for that outcome. *)
Definition mat_zip (f : T -> T -> T) (A B : mat T) : option (mat T) :=
  if same_size A B
  then Some (Mat (n_rows A) (n_cols A) (zip_with f (mem A) (mem B)))
  else None.

(** [A *= k] *)
Definition inplace_times (A : mat T) (k : T) : mat T :=
  mat_map (fun x => x * k) A.
(** [k * A] *)
Definition scalar_times (k : T) (A : mat T) : mat T :=
  mat_map (fun x => k * x) A.
(** [A + k] *)
Definition plus_scalar (A : mat T) (k : T) : mat T :=
  mat_map (fun x => x + k) A.
(** [arma::abs(A)] and [arma::sqrt(A)] *)
Definition arma_abs (A : mat T) : mat T := mat_map abs A.
Definition arma_sqrt (A : mat T) : mat T := mat_map sqrt A.
(** [A += B], [A -= B], [A % B], [A / B], [arma::max(A, B)] *)
Definition inplace_plus : mat T -> mat T -> option (mat T) := mat_zip add.
Definition inplace_minus : mat T -> mat T -> option (mat T) := mat_zip sub.
Definition schur : mat T -> mat T -> option (mat T) := mat_zip mul.
Definition elem_div : mat T -> mat T -> option (mat T) := mat_zip div.
Definition arma_max : mat T -> mat T -> option (mat T) := mat_zip max.

(** A matrix of [rows] x [cols] with all its elements. *)
Definition has_shape (A : mat T) (rows cols : nat) : Prop :=
  n_rows A = rows /\ n_cols A = cols /\ length (mem A) = (rows * cols)%nat.
End Matrices.

(** Sequencing of operations that may fail the size check. *)
Definition bind {A B : Type} (o : option A) (k : A -> option B) : option B :=
  match o with
  | Some x => k x
  | None => None
  end.

Notation "x <- e ;; k" := (bind e (fun x => k))
  (at level 61, e at next level, right associativity).

(** ** The policy *)

(** The private fields of [AdamUpdate]. *)
Record AdamUpdate (T : Type) : Type := mkAdamUpdate {
  epsilon : T;
  beta1 : T;
  beta2 : T;
  adaMax : bool;
  m : mat T;  (* exponential moving average of gradient values *)
  u : mat T;  (* exponentially weighted infinity norm *)
  v : mat T   (* exponential moving average of squared gradient values *)
}.

Section Policy.
Context {T : Type} `{Scalar T}.
Local Open Scope scalar_scope.

(** The constructor: the four configuration values; the three matrices are
    default-constructed. *)
Definition construct (epsilon beta1 beta2 : T) (adaMax : bool)
  : AdamUpdate T :=
  mkAdamUpdate epsilon beta1 beta2 adaMax empty_mat empty_mat empty_mat.

Definition with_m (p : AdamUpdate T) (x : mat T) : AdamUpdate T :=
  mkAdamUpdate (epsilon p) (beta1 p) (beta2 p) (adaMax p) x (u p) (v p).
Definition with_u (p : AdamUpdate T) (x : mat T) : AdamUpdate T :=
  mkAdamUpdate (epsilon p) (beta1 p) (beta2 p) (adaMax p) (m p) x (v p).
Definition with_v (p : AdamUpdate T) (x : mat T) : AdamUpdate T :=
  mkAdamUpdate (epsilon p) (beta1 p) (beta2 p) (adaMax p) (m p) (u p) x.

(** [void Initialize(const size_t rows, const size_t cols)] *)
Definition Initialize (p : AdamUpdate T) (rows cols : nat) : AdamUpdate T :=
  let p := with_m p (zeros rows cols) in
  if adaMax p
  then with_u p (zeros rows cols)
  else with_v p (zeros rows cols).

(** [void Update(arma::mat& iterate, const double stepSize,
                 const arma::mat& gradient, const size_t i)]

    The result is the policy after the call and the new contents of
    [iterate]; [None] when one of Armadillo's size checks fails. *)
Definition Update (p : AdamUpdate T) (iterate : mat T) (stepSize : T)
    (gradient : mat T) (i : N) : option (AdamUpdate T * mat T) :=
  let p := with_m p (inplace_times (m p) (beta1 p)) in
  m' <- inplace_plus (m p) (scalar_times (one - beta1 p) gradient) ;;
  let p := with_m p m' in
  p <- (if adaMax p
        then
          let p := with_u p (inplace_times (u p) (beta2 p)) in
          u' <- arma_max (u p) (arma_abs gradient) ;;
          Some (with_u p u')
        else
          let p := with_v p (inplace_times (v p) (beta2 p)) in
          gg <- schur gradient gradient ;;
          v' <- inplace_plus (v p) (scalar_times (one - beta2 p) gg) ;;
          Some (with_v p v')) ;;
  let biasCorrection1 := one - pow (beta1 p) i in
  let biasCorrection2 := one - pow (beta2 p) i in
  if adaMax p
  then
    if neqb biasCorrection1 zero
    then
      d <- elem_div (scalar_times (stepSize / biasCorrection1) (m p))
                    (plus_scalar (u p) (epsilon p)) ;;
      iterate' <- inplace_minus iterate d ;;
      Some (p, iterate')
    else Some (p, iterate)
  else
    d <- elem_div
           (scalar_times (stepSize * sqrt biasCorrection2 / biasCorrection1)
                         (m p))
           (plus_scalar (arma_sqrt (v p)) (epsilon p)) ;;
    iterate' <- inplace_minus iterate d ;;
    Some (p, iterate').

(** The accessors.  [Epsilon() const], [Beta1() const], [Beta2() const] and
    [AdaMax() const] return the field; the overloads that return a
    reference are used to assign it. *)
Definition Epsilon (p : AdamUpdate T) : T := epsilon p.
Definition Beta1 (p : AdamUpdate T) : T := beta1 p.
Definition Beta2 (p : AdamUpdate T) : T := beta2 p.
Definition AdaMax (p : AdamUpdate T) : bool := adaMax p.

Definition set_Epsilon (p : AdamUpdate T) (x : T) : AdamUpdate T :=
  mkAdamUpdate x (beta1 p) (beta2 p) (adaMax p) (m p) (u p) (v p).
Definition set_Beta1 (p : AdamUpdate T) (x : T) : AdamUpdate T :=
  mkAdamUpdate (epsilon p) x (beta2 p) (adaMax p) (m p) (u p) (v p).
Definition set_Beta2 (p : AdamUpdate T) (x : T) : AdamUpdate T :=
  mkAdamUpdate (epsilon p) (beta1 p) x (adaMax p) (m p) (u p) (v p).
Definition set_AdaMax (p : AdamUpdate T) (x : bool) : AdamUpdate T :=
  mkAdamUpdate (epsilon p) (beta1 p) (beta2 p) x (m p) (u p) (v p).

(** *** The policy in its optimisation loop

    The caller owns the parameter matrix and lends it to [Update]; between
    calls it may initialise the policy again or assign a configuration
    field. *)
Record World : Type := mkWorld {
  policy : AdamUpdate T;
  parameters : mat T
}.

Inductive call : Type :=
| CallInitialize (rows cols : nat)
| CallUpdate (stepSize : T) (gradient : mat T) (i : N)
| AssignEpsilon (x : T)
| AssignBeta1 (x : T)
| AssignBeta2 (x : T)
| AssignAdaMax (x : bool).

Definition step (c : call) (w : World) : option World :=
  match c with
  | CallInitialize rows cols =>
      Some (mkWorld (Initialize (policy w) rows cols) (parameters w))
  | CallUpdate stepSize gradient i =>
      r <- Update (policy w) (parameters w) stepSize gradient i ;;
      Some (mkWorld (fst r) (snd r))
  | AssignEpsilon x => Some (mkWorld (set_Epsilon (policy w) x) (parameters w))
  | AssignBeta1 x => Some (mkWorld (set_Beta1 (policy w) x) (parameters w))
  | AssignBeta2 x => Some (mkWorld (set_Beta2 (policy w) x) (parameters w))
  | AssignAdaMax x => Some (mkWorld (set_AdaMax (policy w) x) (parameters w))
  end.

Fixpoint run (cs : list call) (w : World) : option World :=
  match cs with
  | [] => Some w
  | c :: cs' => w' <- step c w ;; run cs' w'
  end.
End Policy.

(** ** The two readings of [double] *)

(** *** IEEE binary64 *)
Module Binary64.

(** [std::pow(x, (double) i)] belongs to the C library, not to this
    repository.  It is modelled by [i] successive multiplications starting
    from [1.0].  That is what the C library gives at the exponents 0
    ([1.0], whatever [x] is) and 1 ([x] itself) and at the base [1.0]
    (every exponent).  Elsewhere it only approximates the library: the
    products round at every step, so the result can differ from [std::pow]
    in the last place, and an index above 2^53 is not rounded to a [double]
    first.  The properties stated on binary64 use it at the exponents 0 and
    1 and at the base [1.0] only. *)
Definition pow_uint (x : float) (i : N) : float :=
  N.iter i (fun acc => PrimFloat.mul acc x) 1%float.

#[export] Instance float_Scalar : Scalar float := {|
  zero := 0%float;
  one := 1%float;
  add := PrimFloat.add;
  sub := PrimFloat.sub;
  mul := PrimFloat.mul;
  div := PrimFloat.div;
  sqrt := PrimFloat.sqrt;
  abs := PrimFloat.abs;
  ltb := PrimFloat.ltb;
  neqb := fun a b => negb (PrimFloat.eqb a b);
  pow := pow_uint
|}.

(** The default arguments of the constructor, each rounded to the nearest
    binary64 value as the compiler does. *)
#[local] Set Warnings "-inexact-float".
Definition default_epsilon : float := 1e-8%float.
Definition default_beta1 : float := 0.9%float.
Definition default_beta2 : float := 0.999%float.
Definition default_adaMax : bool := false.

(** A value of type [double] that is neither NaN nor an infinity. *)
Definition finite (x : float) : bool := PrimFloat.is_finite x.

End Binary64.

(** *** Exact arithmetic *)
Module Exact.

(** A real number, or [None] for the result of an operation that has no
    finite value: a division by zero, the square root of a negative number,
    or any operation on such a result.  Comparisons with [None] behave as
    comparisons with NaN do. *)
Definition xreal : Type := option R.

(** The element that is the real number [x]. *)
Definition real (x : R) : xreal := Some x.

Definition lift2 (f : R -> R -> R) (a b : xreal) : xreal :=
  match a, b with
  | Some x, Some y => Some (f x y)
  | _, _ => None
  end.

Definition xdiv (a b : xreal) : xreal :=
  match a, b with
  | Some x, Some y => if Req_dec_T y 0%R then None else Some (x / y)%R
  | _, _ => None
  end.

Definition xsqrt (a : xreal) : xreal :=
  match a with
  | Some x => if Rlt_dec x 0%R then None else Some (R_sqrt.sqrt x)
  | None => None
  end.

Definition xabs (a : xreal) : xreal := option_map Rabs a.

Definition xltb (a b : xreal) : bool :=
  match a, b with
  | Some x, Some y => if Rlt_dec x y then true else false
  | _, _ => false
  end.

Definition xneqb (a b : xreal) : bool :=
  match a, b with
  | Some x, Some y => if Req_dec_T x y then false else true
  | _, _ => true
  end.

(** [std::pow(x, 0.0)] is [1.0] even when [x] is NaN. *)
Definition xpow (a : xreal) (i : N) : xreal :=
  match i with
  | 0%N => Some 1%R
  | _ => option_map (fun x => Rpow_def.pow x (N.to_nat i)) a
  end.

#[export] Instance xreal_Scalar : Scalar xreal := {|
  zero := real 0;
  one := real 1;
  add := lift2 Rplus;
  sub := lift2 Rminus;
  mul := lift2 Rmult;
  div := xdiv;
  sqrt := xsqrt;
  abs := xabs;
  ltb := xltb;
  neqb := xneqb;
  pow := xpow
|}.

(** The real number an element stands for ([0] is never used: the lemmas
    below apply it to finite elements only). *)
Definition real_of (a : xreal) : R :=
  match a with
  | Some x => x
  | None => 0%R
  end.

End Exact.

(** * Vocabulary of the statements *)

Section Vocabulary.
Context {T : Type} `{Scalar T}.
Local Open Scope scalar_scope.

(** [A] is the [rows] x [cols] matrix whose [k]-th element is [g k]. *)
Definition elems_of (A : mat T) (rows cols : nat) (g : nat -> T) : Prop :=
  has_shape A rows cols /\
  forall k, (k < rows * cols)%nat -> elem A k = g k.

(** The elements that the statements of [Update] compute from the old
    accumulators and the gradient. *)
Definition first_moment (p : AdamUpdate T) (gradient : mat T) (k : nat) : T :=
  elem (m p) k * beta1 p + (one - beta1 p) * elem gradient k.

Definition second_moment (p : AdamUpdate T) (gradient : mat T) (k : nat) : T :=
  elem (v p) k * beta2 p
  + (one - beta2 p) * (elem gradient k * elem gradient k).

Definition infinity_norm (p : AdamUpdate T) (gradient : mat T) (k : nat) : T :=
  max (elem (u p) k * beta2 p) (abs (elem gradient k)).

(** The configuration of [q] is that of [p]. *)
Definition same_config (p q : AdamUpdate T) : Prop :=
  epsilon q = epsilon p /\ beta1 q = beta1 p /\ beta2 q = beta2 p /\
  adaMax q = adaMax p.

(** The accumulators of [q] are those of [p]. *)
Definition same_accumulators (p q : AdamUpdate T) : Prop :=
  m q = m p /\ u q = u p /\ v q = v p.

(** The calls that assign a configuration field through its accessor. *)
Definition is_assignment (c : call (T := T)) : bool :=
  match c with
  | AssignEpsilon _ | AssignBeta1 _ | AssignBeta2 _ | AssignAdaMax _ => true
  | CallInitialize _ _ | CallUpdate _ _ _ => false
  end.
End Vocabulary.

(** ** On binary64 *)

Import Binary64.

(** A policy with the default configuration, initialised for a 2 x 1 problem,
    and a parameter matrix, a gradient and a step size for it. *)
Definition sample_policy (flag : bool) : AdamUpdate float :=
  Initialize (construct default_epsilon default_beta1 default_beta2 flag) 2 1.
Definition sample_parameters : mat float := Mat 2 1 [1; -2]%float.
Definition sample_gradient : mat float := Mat 2 1 [0.5; -4]%float.
Definition sample_stepSize : float := 0.5%float.

(** A policy that was first initialised with the flag set and then, the flag
    cleared, initialised again: all three accumulators are 2 x 1. *)
Definition sample_policy_both : AdamUpdate float :=
  Initialize (set_AdaMax (sample_policy true) false) 2 1.

(** ** In exact arithmetic *)

Import Exact.

Section ExactVocabulary.
Local Open Scope R_scope.


(** The first moment and the accumulator that the flag selects are zero
    matrices. *)
Definition zero_state (rows cols : nat) (p : AdamUpdate xreal) : Prop :=
  m p = zeros rows cols /\
  if adaMax p then u p = zeros rows cols else v p = zeros rows cols.


(** The calls [Update(parameters, ss 1, g, 1)], ..., [Update(parameters,
    ss n, g, n)]. *)
Definition constant_gradient_calls (ss : nat -> xreal) (g : mat xreal)
    (n : nat) : list (call (T := xreal)) :=
  map (fun j => CallUpdate (ss j) g (N.of_nat j)) (seq 1 n).

(** The world that the calls [cs] lead to from [w0] ([w0] itself should
    one of them fail). *)
Definition world_after (w0 : World (T := xreal)) (cs : list call) : World :=
  match run cs w0 with
  | Some w => w
  | None => w0
  end.

(** The accumulators after [n] calls with a gradient whose [k]-th element is
    the real number [gr k], under the decay rates [b1] and [b2]. *)
Definition accumulated (rows cols : nat) (b1 b2 : R) (gr : nat -> R)
    (n : nat) (q : AdamUpdate xreal) : Prop :=
  elems_of (m q) rows cols (fun k => real ((1 - b1 ^ n) * gr k)) /\
  if adaMax q
  then elems_of (u q) rows cols
         (fun k => real (if (n =? 0)%nat then 0 else Rabs (gr k)))
  else elems_of (v q) rows cols
         (fun k => real ((1 - b2 ^ n) * (gr k * gr k))).
End ExactVocabulary.

(** A policy in exact arithmetic with [epsilon = 1/100], [beta1 = 9/10] and
    [beta2 = 1/2], and a 2 x 1 parameter matrix. *)
Definition exact_policy (flag : bool) : AdamUpdate xreal :=
  construct (real (1 / 100)) (real (9 / 10)) (real (1 / 2)) flag.
Definition exact_parameters : mat xreal := Mat 2 1 [real 1; real (-2)].

(** A policy in exact arithmetic whose second decay rate is 1. *)
Definition exact_policy_beta2_one : AdamUpdate xreal :=
  construct (real (1 / 100)) (real (9 / 10)) (real 1) false.

(** A gradient of real elements for the 2 x 1 problem. *)
Definition exact_gradient : mat xreal := Mat 2 1 [real 3; real (-4)].

(** ** Vocabulary of the further properties *)

Section LoopVocabulary.
Context {T : Type} `{Scalar T}.
Local Open Scope scalar_scope.

(** The statements of [Update] on the accumulators (the first moment, then
    the accumulator of the variant), apart from the statement on
    [iterate]. *)
Definition accumulate (p : AdamUpdate T) (gradient : mat T)
  : option (AdamUpdate T) :=
  m' <- inplace_plus (inplace_times (m p) (beta1 p))
                     (scalar_times (one - beta1 p) gradient) ;;
  if adaMax p
  then
    u' <- arma_max (inplace_times (u p) (beta2 p)) (arma_abs gradient) ;;
    Some (with_u (with_m p m') u')
  else
    gg <- schur gradient gradient ;;
    v' <- inplace_plus (inplace_times (v p) (beta2 p))
                       (scalar_times (one - beta2 p) gg) ;;
    Some (with_v (with_m p m') v').

(** The sizes that [Update] compares: it succeeds exactly when they agree. *)
Definition sizes_agree (p : AdamUpdate T) (iterate gradient : mat T) (i : N)
  : Prop :=
  same_size (m p) gradient = true /\
  if adaMax p
  then same_size (u p) gradient = true /\
       (neqb (one - pow (beta1 p) i) zero = true ->
        same_size iterate gradient = true)
  else same_size (v p) gradient = true /\
       same_size iterate gradient = true.

(** The first moment and the accumulator that the flag selects are
    [rows] x [cols]. *)
Definition ready (rows cols : nat) (p : AdamUpdate T) : Prop :=
  has_shape (m p) rows cols /\
  if adaMax p then has_shape (u p) rows cols else has_shape (v p) rows cols.

(** The calls of an optimisation loop on a [rows] x [cols] problem: [Update]
    with a gradient of that shape, [Initialize] for that shape, and
    assignments of [epsilon], [beta1] and [beta2]; not an assignment of the
    flag. *)
Definition loop_call (rows cols : nat) (c : call (T := T)) : Prop :=
  match c with
  | CallUpdate _ gradient _ => has_shape gradient rows cols
  | CallInitialize r c => r = rows /\ c = cols
  | AssignEpsilon _ | AssignBeta1 _ | AssignBeta2 _ => True
  | AssignAdaMax _ => False
  end.

Definition is_update (c : call (T := T)) : bool :=
  match c with
  | CallUpdate _ _ _ => true
  | _ => false
  end.
End LoopVocabulary.

Section RealVocabulary.
Local Open Scope R_scope.





End RealVocabulary.

(** * Properties *)

(** ** Element-wise operations *)

Section ListFacts.
Context {A B C : Type}.

Lemma zip_with_length (f : A -> B -> C) (l1 : list A) (l2 : list B) :
  length l1 = length l2 -> length (zip_with f l1 l2) = length l1.
Proof.
  revert l2; induction l1 as [|x l1 IH]; intros [|y l2] E;
    simpl in *; try discriminate; auto.
Qed.

Lemma nth_zip_with (f : A -> B -> C) (l1 : list A) (l2 : list B) k d d1 d2 :
  (k < length l1)%nat -> (k < length l2)%nat ->
  nth k (zip_with f l1 l2) d = f (nth k l1 d1) (nth k l2 d2).
Proof.
  revert l2 k; induction l1 as [|x l1 IH]; intros [|y l2] [|k] H1 H2;
    simpl in *; try lia; auto.
  apply IH; lia.
Qed.

Lemma nth_map_lt (f : A -> B) (l : list A) k d d' :
  (k < length l)%nat -> nth k (map f l) d = f (nth k l d').
Proof.
  revert k; induction l as [|x l IH]; intros [|k] Hk; simpl in *;
    try lia; auto.
  apply IH; lia.
Qed.

End ListFacts.

Section MatrixFacts.
Context {T : Type} `{Scalar T}.

Lemma elems_of_shape (A : mat T) rows cols g :
  elems_of A rows cols g -> has_shape A rows cols.
Proof. intros [S _]; exact S. Qed.

Lemma elems_of_self (A : mat T) rows cols :
  has_shape A rows cols -> elems_of A rows cols (elem A).
Proof. intros S; split; auto. Qed.

Lemma elems_of_ext (A : mat T) rows cols g h :
  elems_of A rows cols g ->
  (forall k, (k < rows * cols)%nat -> g k = h k) ->
  elems_of A rows cols h.
Proof.
  intros [S E] Hgh; split; auto.
  intros k Hk; rewrite E by assumption; auto.
Qed.


Lemma zeros_elems rows cols :
  elems_of (zeros rows cols) rows cols (fun _ => zero).
Proof.
  unfold elems_of, has_shape, zeros, elem; simpl.
  rewrite repeat_length. repeat split.
  intros k _. apply nth_repeat.
Qed.


Lemma zeros_shape rows cols : has_shape (zeros rows cols) rows cols.
Proof. apply (elems_of_shape (zeros_elems rows cols)). Qed.


Lemma mat_map_elems f (A : mat T) rows cols g :
  elems_of A rows cols g ->
  elems_of (mat_map f A) rows cols (fun k => f (g k)).
Proof.
  unfold elems_of, has_shape, mat_map, elem; simpl.
  intros [(R & C & L) E]. rewrite length_map. repeat split; auto.
  intros k Hk. rewrite nth_map_lt with (d' := zero) by lia.
  f_equal; auto.
Qed.

Lemma same_size_shapes (A B : mat T) rows cols :
  has_shape A rows cols -> has_shape B rows cols -> same_size A B = true.
Proof.
  unfold has_shape, same_size. intros (-> & -> & _) (-> & -> & _).
  rewrite !Nat.eqb_refl. reflexivity.
Qed.

Lemma mat_zip_elems f (A B : mat T) rows cols g h :
  elems_of A rows cols g -> elems_of B rows cols h ->
  exists C, mat_zip f A B = Some C /\
            elems_of C rows cols (fun k => f (g k) (h k)).
Proof.
  intros [SA EA] [SB EB]. unfold mat_zip.
  rewrite (same_size_shapes SA SB). eexists; split; [reflexivity|].
  destruct SA as (RA & CA & LA), SB as (RB & CB & LB).
  unfold elems_of, has_shape, elem in *; simpl.
  rewrite zip_with_length by congruence. repeat split; auto.
  intros k Hk.
  rewrite nth_zip_with with (d1 := zero) (d2 := zero) by lia.
  f_equal; auto.
Qed.
End MatrixFacts.

(** ** One call of [Update], element by element *)

Section UpdateFacts.
Context {T : Type} `{Scalar T}.
Local Open Scope scalar_scope.

Lemma same_config_refl (p : AdamUpdate T) : same_config p p.
Proof. repeat split. Qed.

Lemma same_config_trans (p q r : AdamUpdate T) :
  same_config p q -> same_config q r -> same_config p r.
Proof.
  unfold same_config. intros (? & ? & ? & ?) (? & ? & ? & ?).
  repeat split; congruence.
Qed.

Variables (p : AdamUpdate T) (iterate : mat T) (stepSize : T).
Variables (gradient : mat T) (i : N) (rows cols : nat).

Hypothesis m_shape : has_shape (m p) rows cols.
Hypothesis gradient_shape : has_shape gradient rows cols.

Lemma first_moment_step :
  exists m',
    inplace_plus (inplace_times (m p) (beta1 p))
                 (scalar_times (one - beta1 p) gradient) = Some m' /\
    elems_of m' rows cols (first_moment p gradient).
Proof.
  exact (mat_zip_elems add
           (mat_map_elems (fun x => x * beta1 p) (elems_of_self m_shape))
           (mat_map_elems (fun x => (one - beta1 p) * x)
              (elems_of_self gradient_shape))).
Qed.

Lemma second_moment_step :
  has_shape (v p) rows cols ->
  exists v',
    (gg <- schur gradient gradient ;;
     inplace_plus (inplace_times (v p) (beta2 p))
                  (scalar_times (one - beta2 p) gg)) = Some v' /\
    elems_of v' rows cols (second_moment p gradient).
Proof.
  intros v_shape. unfold schur.
  destruct (mat_zip_elems mul (elems_of_self gradient_shape)
              (elems_of_self gradient_shape)) as (gg & -> & Hgg).
  cbn [bind].
  exact (mat_zip_elems add
           (mat_map_elems (fun x => x * beta2 p) (elems_of_self v_shape))
           (mat_map_elems (fun x => (one - beta2 p) * x) Hgg)).
Qed.

Lemma infinity_norm_step :
  has_shape (u p) rows cols ->
  exists u',
    arma_max (inplace_times (u p) (beta2 p)) (arma_abs gradient) = Some u' /\
    elems_of u' rows cols (infinity_norm p gradient).
Proof.
  intros u_shape.
  exact (mat_zip_elems max
           (mat_map_elems (fun x => x * beta2 p) (elems_of_self u_shape))
           (mat_map_elems abs (elems_of_self gradient_shape))).
Qed.

(** The last statement of either branch: [iterate -= (k * m) / D]. *)
Lemma iterate_step (k : T) (m' D : mat T) (gm gd : nat -> T) :
  has_shape iterate rows cols ->
  elems_of m' rows cols gm -> elems_of D rows cols gd ->
  exists iterate',
    (d <- elem_div (scalar_times k m') D ;; inplace_minus iterate d)
      = Some iterate' /\
    elems_of iterate' rows cols
      (fun j => elem iterate j - (k * gm j) / gd j).
Proof.
  intros it_shape Hm HD. unfold elem_div, inplace_minus, scalar_times.
  destruct (mat_zip_elems div (mat_map_elems (fun x => k * x) Hm) HD)
    as (d & -> & Hd).
  cbn [bind].
  exact (mat_zip_elems sub (elems_of_self it_shape) Hd).
Qed.

(** [Update] when [adaMax] is false. *)
Lemma Update_adam :
  adaMax p = false ->
  has_shape (v p) rows cols -> has_shape iterate rows cols ->
  exists q iterate',
    Update p iterate stepSize gradient i = Some (q, iterate') /\
    same_config p q /\ u q = u p /\
    elems_of (m q) rows cols (first_moment p gradient) /\
    elems_of (v q) rows cols (second_moment p gradient) /\
    elems_of iterate' rows cols
      (fun k =>
         elem iterate k
         - ((stepSize * sqrt (one - pow (beta2 p) i)
             / (one - pow (beta1 p) i))
            * first_moment p gradient k)
           / (sqrt (second_moment p gradient k) + epsilon p)).
Proof.
  intros Hflag v_shape it_shape.
  destruct first_moment_step as (m' & Em & Hm).
  destruct (second_moment_step v_shape) as (v' & Ev & Hv).
  unfold Update; cbn [with_m with_v m v u adaMax beta1 beta2 epsilon].
  rewrite Em; cbn [bind]. rewrite Hflag.
  cbn [with_m with_v m v u adaMax beta1 beta2 epsilon].
  destruct (schur gradient gradient) as [gg|]; [|discriminate].
  cbn [bind] in Ev |- *. rewrite Ev; cbn [bind].
  cbn [with_m with_v m v u adaMax beta1 beta2 epsilon]. rewrite Hflag.
  destruct (iterate_step
              (stepSize * sqrt (one - pow (beta2 p) i)
               / (one - pow (beta1 p) i))
              it_shape Hm
              (mat_map_elems (fun x => x + epsilon p)
                 (mat_map_elems sqrt Hv)))
    as (iterate' & Ei & Hi).
  unfold plus_scalar, arma_sqrt.
  cbn [bind] in Ei |- *.
  destruct (elem_div _ _) as [d|]; [|discriminate]. cbn [bind] in Ei |- *.
  rewrite Ei. cbn [bind].
  eexists _, iterate'. split; [reflexivity|].
  split; [repeat split|]. split; [reflexivity|].
  split; [exact Hm|]. split; [exact Hv|]. exact Hi.
Qed.

(** [Update] when [adaMax] is true.  The accumulators are updated before
    the test on [biasCorrection1]; only the statement on [iterate] is
    guarded. *)
Lemma Update_adamax :
  adaMax p = true -> has_shape (u p) rows cols ->
  exists q,
    same_config p q /\ v q = v p /\
    elems_of (m q) rows cols (first_moment p gradient) /\
    elems_of (u q) rows cols (infinity_norm p gradient) /\
    (neqb (one - pow (beta1 p) i) zero = false ->
     Update p iterate stepSize gradient i = Some (q, iterate)) /\
    (neqb (one - pow (beta1 p) i) zero = true ->
     has_shape iterate rows cols ->
     exists iterate',
       Update p iterate stepSize gradient i = Some (q, iterate') /\
       elems_of iterate' rows cols
         (fun k =>
            elem iterate k
            - ((stepSize / (one - pow (beta1 p) i))
               * first_moment p gradient k)
              / (infinity_norm p gradient k + epsilon p))).
Proof.
  intros Hflag u_shape.
  destruct first_moment_step as (m' & Em & Hm).
  destruct (infinity_norm_step u_shape) as (u' & Eu & Hu).
  exists (with_u (with_m p m') u').
  split; [repeat split; auto|]. split; [reflexivity|].
  split; [exact Hm|]. split; [exact Hu|].
  unfold Update; cbn [with_m with_u m v u adaMax beta1 beta2 epsilon].
  rewrite Em; cbn [bind].
  cbn [with_m with_u m v u adaMax beta1 beta2 epsilon]. rewrite Hflag.
  rewrite Eu; cbn [bind].
  cbn [with_m with_u m v u adaMax beta1 beta2 epsilon]. rewrite Hflag.
  split; intros Hbc; rewrite Hbc; [reflexivity|].
  intros it_shape.
  destruct (iterate_step (stepSize / (one - pow (beta1 p) i))
              it_shape Hm (mat_map_elems (fun x => x + epsilon p) Hu))
    as (iterate' & Ei & Hi).
  unfold plus_scalar.
  destruct (elem_div _ _) as [d|]; [|discriminate]. cbn [bind] in Ei |- *.
  rewrite Ei. cbn [bind].
  exists iterate'. split; [reflexivity|exact Hi].
Qed.
End UpdateFacts.

(** ** Calls in sequence *)

Section RunFacts.
Context {T : Type} `{Scalar T}.

Lemma run_app (cs1 cs2 : list (call (T := T))) (w : World) :
  run (cs1 ++ cs2) w = (w' <- run cs1 w ;; run cs2 w').
Proof.
  revert w; induction cs1 as [|c cs1 IH]; intros w; simpl; auto.
  destruct (step c w) as [w'|]; simpl; auto.
Qed.

Lemma run_snoc (cs : list (call (T := T))) (c : call) (w w1 : World) :
  run cs w = Some w1 -> run (cs ++ [c]) w = step c w1.
Proof.
  intros E. rewrite run_app, E. simpl.
  destruct (step c w1); reflexivity.
Qed.

Lemma Initialize_same_config (p : AdamUpdate T) (rows cols : nat) :
  same_config p (Initialize p rows cols).
Proof.
  unfold Initialize; cbn [with_m adaMax].
  destruct (adaMax p) eqn:E; repeat split; cbn; auto.
Qed.

End RunFacts.

(** * [Initialize], [Update] and the accessors, for every arithmetic *)

Section Claims.
Context {T : Type} `{Scalar T}.
Local Open Scope scalar_scope.

(** C1.  A call of [Update] with [adaMax] false, on accumulators, gradient
    and parameters of one shape and with an iteration index of at least 1,
    succeeds and performs exactly the three assignments of Adam: the first
    moment becomes [m * beta1 + (1 - beta1) * gradient], the second moment
    [v * beta2 + (1 - beta2) * (gradient * gradient)], and each parameter
    decreases by
    [(stepSize * sqrt (1 - beta2^i) / (1 - beta1^i)) * m' / (sqrt v' + epsilon)]
    on the new moments [m'] and [v'], with [epsilon] itself in the
    denominator.  The configuration and the infinity norm are untouched. *)
Theorem Update_adam_performs
    (p : AdamUpdate T) (iterate : mat T) (stepSize : T) (gradient : mat T)
    (i : N) (rows cols : nat) :
  adaMax p = false ->
  has_shape (m p) rows cols -> has_shape (v p) rows cols ->
  has_shape gradient rows cols -> has_shape iterate rows cols ->
  (1 <= i)%N ->
  exists q iterate',
    Update p iterate stepSize gradient i = Some (q, iterate') /\
    same_config p q /\ u q = u p /\
    has_shape (m q) rows cols /\ has_shape (v q) rows cols /\
    has_shape iterate' rows cols /\
    forall k, (k < rows * cols)%nat ->
      elem (m q) k
        = elem (m p) k * beta1 p + (one - beta1 p) * elem gradient k /\
      elem (v q) k
        = elem (v p) k * beta2 p
          + (one - beta2 p) * (elem gradient k * elem gradient k) /\
      elem iterate' k
        = elem iterate k
          - ((stepSize * sqrt (one - pow (beta2 p) i)
              / (one - pow (beta1 p) i))
             * elem (m q) k)
            / (sqrt (elem (v q) k) + epsilon p).
Proof.
  intros Hflag Sm Sv Sg Si _.
  destruct (@Update_adam T _ p iterate stepSize gradient i rows cols
              Sm Sg Hflag Sv Si)
    as (q & iterate' & E & Hc & Hu & [Sm' Em] & [Sv' Ev] & [Si' Ei]).
  exists q, iterate'. repeat (split; [assumption|]).
  intros k Hk. rewrite (Em k Hk), (Ev k Hk), (Ei k Hk).
  repeat split.
Qed.

(** C2.  A call of [Update] with [adaMax] true, on accumulators, gradient
    and parameters of one shape, succeeds.  Element by element, the infinity
    norm becomes the larger of [u * beta2] and [|gradient|]: [|gradient|]
    when [u * beta2 < |gradient|], and [u * beta2] otherwise.  The first
    moment becomes [m * beta1 + (1 - beta1) * gradient], and when
    [1 - beta1^i] differs from 0 each parameter decreases by
    [(stepSize / (1 - beta1^i)) * m' / (u' + epsilon)] on the new
    accumulators [m'] and [u']. *)
Theorem Update_adamax_performs
    (p : AdamUpdate T) (iterate : mat T) (stepSize : T) (gradient : mat T)
    (i : N) (rows cols : nat) :
  adaMax p = true ->
  has_shape (m p) rows cols -> has_shape (u p) rows cols ->
  has_shape gradient rows cols -> has_shape iterate rows cols ->
  exists q iterate',
    Update p iterate stepSize gradient i = Some (q, iterate') /\
    has_shape (m q) rows cols /\ has_shape (u q) rows cols /\
    (forall k, (k < rows * cols)%nat ->
       elem (u q) k
         = (if ltb (elem (u p) k * beta2 p) (abs (elem gradient k))
            then abs (elem gradient k)
            else elem (u p) k * beta2 p) /\
       elem (m q) k
         = elem (m p) k * beta1 p + (one - beta1 p) * elem gradient k) /\
    (neqb (one - pow (beta1 p) i) zero = true ->
     has_shape iterate' rows cols /\
     forall k, (k < rows * cols)%nat ->
       elem iterate' k
         = elem iterate k
           - ((stepSize / (one - pow (beta1 p) i)) * elem (m q) k)
             / (elem (u q) k + epsilon p)).
Proof.
  intros Hflag Sm Su Sg Si.
  destruct (@Update_adamax T _ p iterate stepSize gradient i rows cols
              Sm Sg Hflag Su)
    as (q & Hc & Hv & [Sm' Em] & [Su' Eu] & Hskip & Hstep).
  assert (Hacc : forall k, (k < rows * cols)%nat ->
            elem (u q) k
              = (if ltb (elem (u p) k * beta2 p) (abs (elem gradient k))
                 then abs (elem gradient k)
                 else elem (u p) k * beta2 p) /\
            elem (m q) k
              = elem (m p) k * beta1 p + (one - beta1 p) * elem gradient k).
  { intros k Hk. split; [exact (Eu k Hk)|exact (Em k Hk)]. }
  destruct (neqb (one - pow (beta1 p) i) zero) eqn:Hbc.
  - destruct (Hstep eq_refl Si) as (iterate' & E & [Si' Ei]).
    exists q, iterate'. split; [exact E|]. split; [exact Sm'|].
    split; [exact Su'|]. split; [exact Hacc|].
    intros _. split; [exact Si'|].
    intros k Hk. rewrite (Em k Hk), (Eu k Hk), (Ei k Hk). reflexivity.
  - exists q, iterate. split; [auto|]. split; [exact Sm'|].
    split; [exact Su'|]. split; [exact Hacc|]. discriminate.
Qed.

Section IndexZero.
Context `{!ZeroExponent T}.

(** With an iteration index of 0 the first bias correction is
    [1 - beta1^0 = 0], whatever [beta1] is, and the test
    [biasCorrection1 != 0.0] fails. *)
Lemma biasCorrection1_index_zero (b : T) :
  one - pow b 0%N = zero /\ neqb (one - pow b 0%N) zero = false.
Proof.
  rewrite pow_0, sub_one_one. split; [reflexivity|apply neqb_zero_zero].
Qed.

(** C3.  With [adaMax] true, a call of [Update] with iteration index 0 on
    an initialised policy (accumulators and gradient of one shape)
    succeeds, so nothing is raised, and leaves the parameter matrix
    exactly as it was.  This holds for every [beta1], so in particular
    for every [beta1] other than 1. *)
Theorem Update_adamax_index_zero_parameters
    (p : AdamUpdate T) (iterate : mat T) (stepSize : T) (gradient : mat T)
    (rows cols : nat) :
  adaMax p = true ->
  has_shape (m p) rows cols -> has_shape (u p) rows cols ->
  has_shape gradient rows cols ->
  exists q, Update p iterate stepSize gradient 0%N = Some (q, iterate).
Proof.
  intros Hflag Sm Su Sg.
  destruct (@Update_adamax T _ p iterate stepSize gradient 0%N rows cols
              Sm Sg Hflag Su)
    as (q & _ & _ & _ & _ & Hskip & _).
  exists q. apply Hskip, biasCorrection1_index_zero.
Qed.

(** C7, as the code has it.  In the guarded case of AdaMax (iteration
    index 0, so [biasCorrection1 == 0]) the call leaves the parameters as
    they were, but it has already updated the accumulators: the first
    moment is [m * beta1 + (1 - beta1) * gradient] and the infinity norm
    is the larger of [u * beta2] and [|gradient|] ([|gradient|] when
    [u * beta2 < |gradient|], [u * beta2] otherwise).  The configuration
    and the second moment are untouched. *)
Theorem Update_adamax_index_zero_accumulates
    (p : AdamUpdate T) (iterate : mat T) (stepSize : T) (gradient : mat T)
    (rows cols : nat) :
  adaMax p = true ->
  has_shape (m p) rows cols -> has_shape (u p) rows cols ->
  has_shape gradient rows cols ->
  exists q,
    Update p iterate stepSize gradient 0%N = Some (q, iterate) /\
    same_config p q /\ v q = v p /\
    has_shape (m q) rows cols /\ has_shape (u q) rows cols /\
    forall k, (k < rows * cols)%nat ->
      elem (m q) k
        = elem (m p) k * beta1 p + (one - beta1 p) * elem gradient k /\
      elem (u q) k
        = (if ltb (elem (u p) k * beta2 p) (abs (elem gradient k))
           then abs (elem gradient k)
           else elem (u p) k * beta2 p).
Proof.
  intros Hflag Sm Su Sg.
  destruct (@Update_adamax T _ p iterate stepSize gradient 0%N rows cols
              Sm Sg Hflag Su)
    as (q & Hc & Hv & [Sm' Em] & [Su' Eu] & Hskip & _).
  exists q. split; [apply Hskip, biasCorrection1_index_zero|].
  repeat (split; [assumption|]).
  intros k Hk. rewrite (Em k Hk), (Eu k Hk). split; reflexivity.
Qed.
End IndexZero.

(** C6.  Whatever the policy holds, [Initialize rows cols] makes the first
    moment the [rows] x [cols] zero matrix, and likewise the accumulator
    that the flag selects: the infinity norm when [adaMax] is true, the
    second moment when it is false.  The configuration, and with it the
    flag, is as before. *)
Theorem Initialize_zeroes (p : AdamUpdate T) (rows cols : nat) :
  m (Initialize p rows cols) = zeros rows cols /\
  (if adaMax p
   then u (Initialize p rows cols) = zeros rows cols
   else v (Initialize p rows cols) = zeros rows cols) /\
  same_config p (Initialize p rows cols) /\
  elems_of (zeros rows cols) rows cols (fun _ => zero).
Proof.
  unfold Initialize; cbn [with_m adaMax].
  split; [destruct (adaMax p); reflexivity|].
  split; [destruct (adaMax p); reflexivity|].
  split; [apply Initialize_same_config|apply zeros_elems].
Qed.

(** C10.  [Initialize] does not touch the accumulator that the flag does
    not select: with [adaMax] false the infinity norm keeps its contents,
    with [adaMax] true the second moment does. *)
Theorem Initialize_frame (p : AdamUpdate T) (rows cols : nat) :
  if adaMax p
  then v (Initialize p rows cols) = v p
  else u (Initialize p rows cols) = u p.
Proof.
  unfold Initialize; cbn [with_m adaMax].
  destruct (adaMax p); reflexivity.
Qed.

(** C9.  Assigning [epsilon], [beta1], [beta2] or the flag through its
    accessor, after any calls, changes neither the parameter matrix nor
    any of the three accumulators: they are what the earlier calls left.
    Only the assigned field changes, and the accessors read the new value
    from then on. *)
Theorem assignment_frame (cs : list call) (c : call) (w w1 : World) :
  is_assignment c = true ->
  run cs w = Some w1 ->
  exists w2,
    run (cs ++ [c]) w = Some w2 /\
    parameters w2 = parameters w1 /\
    same_accumulators (policy w1) (policy w2) /\
    match c with
    | AssignEpsilon x =>
        Epsilon (policy w2) = x /\ Beta1 (policy w2) = Beta1 (policy w1) /\
        Beta2 (policy w2) = Beta2 (policy w1) /\
        AdaMax (policy w2) = AdaMax (policy w1)
    | AssignBeta1 x =>
        Epsilon (policy w2) = Epsilon (policy w1) /\ Beta1 (policy w2) = x /\
        Beta2 (policy w2) = Beta2 (policy w1) /\
        AdaMax (policy w2) = AdaMax (policy w1)
    | AssignBeta2 x =>
        Epsilon (policy w2) = Epsilon (policy w1) /\
        Beta1 (policy w2) = Beta1 (policy w1) /\ Beta2 (policy w2) = x /\
        AdaMax (policy w2) = AdaMax (policy w1)
    | AssignAdaMax x =>
        Epsilon (policy w2) = Epsilon (policy w1) /\
        Beta1 (policy w2) = Beta1 (policy w1) /\
        Beta2 (policy w2) = Beta2 (policy w1) /\ AdaMax (policy w2) = x
    | _ => True
    end.
Proof.
  intros Hc E. rewrite (@run_snoc T _ cs c w w1 E).
  destruct c; try discriminate; simpl;
    eexists; (split; [reflexivity|]); simpl; repeat split.
Qed.
End Claims.

(** * The policy on IEEE binary64 *)

#[global] Instance float_ZeroExponent : ZeroExponent float.
Proof. split; [intros x|..]; reflexivity. Qed.

Section Binary64Facts.

(** Floats that compare equal to themselves and not to each other are
    different. *)
Lemma float_neq (x y : float) :
  PrimFloat.eqb x y = false -> PrimFloat.eqb x x = true -> x <> y.
Proof. intros Hxy Hxx ->. congruence. Qed.

Lemma mat_neq (A B : mat float) (k : nat) : elem A k <> elem B k -> A <> B.
Proof. intros Hk ->. apply Hk; reflexivity. Qed.

(** Multiplication of doubles commutes, so that [m * beta1], which [m *=
    beta1] computes, is [beta1 * m]. *)
Lemma float_mul_comm (x y : float) : PrimFloat.mul x y = PrimFloat.mul y x.
Proof.
  apply Prim2SF_inj. rewrite !mul_spec.
  destruct (Prim2SF x) as [sx|sx| |sx mx ex],
           (Prim2SF y) as [sy|sy| |sy my ey];
    unfold SF64mul, SFmul; rewrite ?(xorb_comm sx sy); try reflexivity.
  rewrite (Pos.mul_comm mx my), (Z.add_comm ex ey). reflexivity.
Qed.

(** NaN propagates through the operations of the last statement. *)
Lemma zero_times_over_zero (s : float) :
  PrimFloat.div (PrimFloat.mul s 0%float) 0%float = nan.
Proof.
  apply Prim2SF_inj. rewrite div_spec, mul_spec.
  change (Prim2SF 0%float) with (S754_zero false).
  change (Prim2SF nan) with S754_nan.
  destruct (Prim2SF s) as [sg|sg| |sg mx ex]; reflexivity.
Qed.

Lemma nan_times (x : float) : PrimFloat.mul nan x = nan.
Proof.
  apply Prim2SF_inj. rewrite mul_spec.
  change (Prim2SF nan) with S754_nan. reflexivity.
Qed.

Lemma nan_over (x : float) : PrimFloat.div nan x = nan.
Proof.
  apply Prim2SF_inj. rewrite div_spec.
  change (Prim2SF nan) with S754_nan. reflexivity.
Qed.

Lemma minus_nan (x : float) : PrimFloat.sub x nan = nan.
Proof.
  apply Prim2SF_inj. rewrite sub_spec.
  change (Prim2SF nan) with S754_nan.
  destruct (Prim2SF x) as [sg|sg| |sg mx ex]; reflexivity.
Qed.

(** The factor of the Adam branch at iteration index 0 is NaN for every
    step size, finite or not, and so is the parameter it is applied to. *)
Lemma adam_index_zero_element (param stepSize b1 b2 mk dk : float) :
  (param - ((stepSize * sqrt (one - pow b2 0%N) / (one - pow b1 0%N)) * mk)
           / dk)%sc = nan.
Proof.
  change (PrimFloat.sub param
            (PrimFloat.div
               (PrimFloat.mul
                  (PrimFloat.div (PrimFloat.mul stepSize 0%float) 0%float)
                  mk)
               dk) = nan).
  rewrite zero_times_over_zero, nan_times, nan_over, minus_nan.
  reflexivity.
Qed.
End Binary64Facts.

(** C4.  With [adaMax] false, [Update] does not test its bias correction.  At
    iteration index 0 the denominator [1 - beta1^0] is 0, the division is
    carried out all the same, and every element of the resulting parameter
    matrix is NaN, whatever the inputs.  The same call with [adaMax] true (on
    a policy whose infinity norm is allocated) returns the parameters as
    they were. *)
Theorem Update_adam_index_zero_not_finite
    (p : AdamUpdate float) (iterate : mat float) (stepSize : float)
    (gradient : mat float) (rows cols : nat) :
  adaMax p = false ->
  has_shape (m p) rows cols -> has_shape (v p) rows cols ->
  has_shape gradient rows cols -> has_shape iterate rows cols ->
  sub one (pow (beta1 p) 0%N) = zero /\
  (exists q iterate',
     Update p iterate stepSize gradient 0%N = Some (q, iterate') /\
     has_shape iterate' rows cols /\
     forall k, (k < rows * cols)%nat ->
       elem iterate' k = nan /\ finite (elem iterate' k) = false) /\
  (has_shape (u p) rows cols ->
   exists q,
     Update (set_AdaMax p true) iterate stepSize gradient 0%N
       = Some (q, iterate)).
Proof.
  intros Hflag Sm Sv Sg Si. split; [reflexivity|]. split.
  - destruct (@Update_adam float _ p iterate stepSize gradient 0%N rows cols
                Sm Sg Hflag Sv Si)
      as (q & iterate' & E & _ & _ & _ & _ & [Si' Ei]).
    exists q, iterate'. split; [exact E|]. split; [exact Si'|].
    intros k Hk. rewrite (Ei k Hk), adam_index_zero_element.
    split; reflexivity.
  - intros Su.
    destruct (@Update_adamax float _ (set_AdaMax p true) iterate stepSize
                gradient 0%N rows cols Sm Sg eq_refl Su)
      as (q & _ & _ & _ & _ & Hskip & _).
    exists q. apply Hskip. reflexivity.
Qed.

Lemma Update_adam_index_zero_not_finite_witness :
  (exists q iterate',
     Update sample_policy_both sample_parameters sample_stepSize
       sample_gradient 0%N = Some (q, iterate') /\
     elem iterate' 0 = nan /\ elem iterate' 1 = nan) /\
  (exists q,
     Update (set_AdaMax sample_policy_both true) sample_parameters
       sample_stepSize sample_gradient 0%N = Some (q, sample_parameters)).
Proof.
  destruct (@Update_adam_index_zero_not_finite sample_policy_both
              sample_parameters sample_stepSize sample_gradient 2 1)
    as (_ & (q & iterate' & E & _ & Hnan) & Hmax);
    try (repeat split; reflexivity).
  split.
  - exists q, iterate'. split; [exact E|]. split; apply Hnan; simpl; lia.
  - apply Hmax. repeat split; reflexivity.
Defined.

Lemma Update_adam_performs_witness :
  exists q iterate',
    Update (sample_policy false) sample_parameters sample_stepSize
      sample_gradient 1%N = Some (q, iterate') /\
    same_config (sample_policy false) q /\ has_shape iterate' 2 1.
Proof.
  destruct (@Update_adam_performs float _ (sample_policy false)
              sample_parameters sample_stepSize sample_gradient 1%N 2 1)
    as (q & iterate' & E & Hc & _ & _ & _ & Si & _);
    try (repeat split; reflexivity); try lia.
  exists q, iterate'. repeat split; assumption || apply Hc || apply Si.
Defined.

Lemma Update_adamax_performs_witness :
  exists q iterate',
    Update (sample_policy true) sample_parameters sample_stepSize
      sample_gradient 1%N = Some (q, iterate') /\
    has_shape (u q) 2 1 /\
    elem (u q) 0 = 0.5%float /\ elem (u q) 1 = 4%float.
Proof.
  destruct (@Update_adamax_performs float _ (sample_policy true)
              sample_parameters sample_stepSize sample_gradient 1%N 2 1)
    as (q & iterate' & E & _ & Su & Hacc & _);
    try (repeat split; reflexivity).
  exists q, iterate'. split; [exact E|]. split; [exact Su|].
  split.
  - rewrite (proj1 (Hacc 0%nat ltac:(simpl; lia))). reflexivity.
  - rewrite (proj1 (Hacc 1%nat ltac:(simpl; lia))). reflexivity.
Defined.

Lemma Update_adamax_index_zero_parameters_witness :
  exists q,
    Update (sample_policy true) sample_parameters sample_stepSize
      sample_gradient 0%N = Some (q, sample_parameters).
Proof.
  apply (@Update_adamax_index_zero_parameters float _ _ (sample_policy true)
           sample_parameters sample_stepSize sample_gradient 2 1);
    repeat split; reflexivity.
Defined.

(** C7, as stated, fails: on the default configuration with the flag set,
    initialised for 2 x 1, the call with iteration index 0 is in the guarded
    case and returns the parameters as they were, but the first moment and
    the infinity norm it leaves are not the zero matrices it found. *)
Lemma Update_adamax_index_zero_changes_accumulators :
  sub one (pow (beta1 (sample_policy true)) 0%N) = zero /\
  exists q,
    Update (sample_policy true) sample_parameters sample_stepSize
      sample_gradient 0%N = Some (q, sample_parameters) /\
    m q <> m (sample_policy true) /\ u q <> u (sample_policy true).
Proof.
  split; [reflexivity|]. eexists. split; [reflexivity|].
  split; apply mat_neq with (k := 0%nat); apply float_neq; reflexivity.
Qed.

Lemma Update_adamax_index_zero_accumulates_witness :
  exists q,
    Update (sample_policy true) sample_parameters sample_stepSize
      sample_gradient 0%N = Some (q, sample_parameters) /\
    elem (m q) 0
      = add (mul (elem (m (sample_policy true)) 0)
                 (beta1 (sample_policy true)))
            (mul (sub one (beta1 (sample_policy true)))
                 (elem sample_gradient 0)) /\
    elem (u q) 0 = 0.5%float /\ elem (u q) 1 = 4%float.
Proof.
  destruct (@Update_adamax_index_zero_accumulates float _ _
              (sample_policy true) sample_parameters sample_stepSize
              sample_gradient 2 1)
    as (q & E & _ & _ & _ & _ & Hk);
    try (repeat split; reflexivity).
  exists q. split; [exact E|].
  split; [apply Hk; simpl; lia|]. split.
  - rewrite (proj2 (Hk 0%nat ltac:(simpl; lia))). reflexivity.
  - rewrite (proj2 (Hk 1%nat ltac:(simpl; lia))). reflexivity.
Defined.

Lemma assignment_frame_witness :
  exists w1 w2,
    run [CallInitialize 2 1;
         CallUpdate sample_stepSize sample_gradient 1%N]
        (mkWorld (construct default_epsilon default_beta1 default_beta2 false)
                 sample_parameters) = Some w1 /\
    run ([CallInitialize 2 1;
          CallUpdate sample_stepSize sample_gradient 1%N]
           ++ [AssignBeta1 0.5%float])
        (mkWorld (construct default_epsilon default_beta1 default_beta2 false)
                 sample_parameters) = Some w2 /\
    parameters w2 = parameters w1 /\
    same_accumulators (policy w1) (policy w2) /\
    Beta1 (policy w2) = 0.5%float.
Proof.
  eexists.
  destruct (@assignment_frame float _
              [CallInitialize 2 1;
               CallUpdate sample_stepSize sample_gradient 1%N]
              (AssignBeta1 0.5%float)
              (mkWorld
                 (construct default_epsilon default_beta1 default_beta2 false)
                 sample_parameters)
              _ eq_refl eq_refl)
    as (w2 & E2 & Hp & Ha & _ & Hb & _).
  exists w2. split; [reflexivity|]. repeat split; assumption || apply Ha.
Defined.

(** ** Zero gradients on binary64

    With the default configuration three calls with a zero gradient return
    the parameters bit for bit, in either variant. *)
Example zero_gradients_binary64 (flag : bool) :
  option_map parameters
    (run [CallUpdate sample_stepSize (zeros 2 1) 1%N;
          CallUpdate sample_stepSize (zeros 2 1) 1%N;
          CallUpdate sample_stepSize (zeros 2 1) 1%N]
         (mkWorld (sample_policy flag) sample_parameters))
  = Some sample_parameters.
Proof. destruct flag; vm_compute; reflexivity. Qed.

(** Inside the construction contract binary64 can still overflow.  With the
    default configuration, the flag set and the step size 2^1023, the factor
    [stepSize / biasCorrection1] is infinite at iteration index 1, its
    product with the zero first moment is NaN, and so is every parameter:
    the property of zero gradients is one of exact arithmetic. *)
Remark zero_gradient_overflow_binary64 :
  option_map (fun w => map PrimFloat.is_nan (mem (parameters w)))
    (run [CallUpdate 0x1p+1023%float (zeros 2 1) 1%N]
         (mkWorld (sample_policy true) sample_parameters))
  = Some [true; true].
Proof. vm_compute. reflexivity. Qed.


(** * The policy in exact arithmetic *)

#[global] Instance xreal_ZeroExponent : ZeroExponent xreal.
Proof.
  split.
  - intros x; reflexivity.
  - cbn. unfold real. f_equal. lra.
  - cbn. destruct (Req_dec_T 0 0) as [_|N]; [reflexivity|now elim N].
Qed.

Section ExactFacts.
Local Open Scope R_scope.

Lemma xadd_real (x y : R) : add (real x) (real y) = real (x + y).
Proof. reflexivity. Qed.

Lemma xsub_real (x y : R) : sub (real x) (real y) = real (x - y).
Proof. reflexivity. Qed.

Lemma xmul_real (x y : R) : mul (real x) (real y) = real (x * y).
Proof. reflexivity. Qed.

Lemma xmul_comm (x y : xreal) : mul x y = mul y x.
Proof. destruct x, y; cbn; try reflexivity. f_equal. ring. Qed.

Lemma xabs_real (x : R) : abs (real x) = real (Rabs x).
Proof. reflexivity. Qed.




(** [std::max] on two real numbers. *)
Lemma xmax_real (x y : R) : max (real x) (real y) = real (Rmax y x).
Proof.
  unfold max, Rmax. cbn.
  destruct (Rlt_dec x y), (Rle_dec y x); try reflexivity; lra.
Qed.






End ExactFacts.

(** ** Zero gradients *)

Section ZeroGradient.
Local Open Scope R_scope.


Lemma Initialize_zero_state (p : AdamUpdate xreal) (rows cols : nat) :
  zero_state rows cols (Initialize p rows cols).
Proof.
  unfold zero_state, Initialize; cbn [with_m adaMax].
  destruct (adaMax p) eqn:E; cbn; rewrite E; split; reflexivity.
Qed.

Variables (p : AdamUpdate xreal) (rows cols : nat).




End ZeroGradient.

Section ZeroGradientRuns.
Local Open Scope R_scope.
Variables (rows cols : nat).

End ZeroGradientRuns.




(** ** A constant gradient *)

Section ConstantGradient.
Local Open Scope R_scope.

Lemma decay_limit (b x : R) :
  0 <= b < 1 -> Un_cv (fun n => (1 - b ^ n) * x) x.
Proof.
  intros Hb eps Heps.
  assert (Hy : 0 < eps / (Rabs x + 1)).
  { apply Rdiv_lt_0_compat; [lra|]. pose proof (Rabs_pos x). lra. }
  destruct (@pow_lt_1_zero b) with (y := eps / (Rabs x + 1))
    as [n0 Hn0]; [rewrite Rabs_right; lra|exact Hy|].
  exists n0. intros n Hn. unfold Rdist.
  replace ((1 - b ^ n) * x - x) with (- (b ^ n * x)) by ring.
  rewrite Rabs_Ropp, Rabs_mult.
  pose proof (Hn0 n Hn) as Hlt. pose proof (Rabs_pos x) as Hx.
  pose proof (Rabs_pos (b ^ n)) as Hbn.
  apply Rle_lt_trans with (Rabs (b ^ n) * (Rabs x + 1)); [nra|].
  apply Rlt_le_trans with (eps / (Rabs x + 1) * (Rabs x + 1)).
  - apply Rmult_lt_compat_r; lra.
  - right. field. lra.
Qed.

Lemma eventually_constant_limit (x : R) :
  Un_cv (fun n => if (n =? 0)%nat then 0 else x) x.
Proof.
  intros eps Heps. exists 1%nat. intros n Hn.
  destruct (Nat.eqb_spec n 0); [lia|].
  unfold Rdist. replace (x - x) with 0 by ring. rewrite Rabs_R0. lra.
Qed.

Variables (rows cols : nat) (b1 b2 : R) (g : mat xreal) (gr : nat -> R).

Hypothesis b2_le_1 : b2 <= 1.
Hypothesis g_real : elems_of g rows cols (fun k => real (gr k)).

Lemma Initialize_accumulated (p : AdamUpdate xreal) :
  accumulated rows cols b1 b2 gr 0 (Initialize p rows cols).
Proof.
  destruct (Initialize_zero_state p rows cols) as [Zm Zs].
  destruct (Initialize_same_config p rows cols) as (_ & _ & _ & Hf).
  unfold accumulated. rewrite Zm.
  split; [|destruct (adaMax (Initialize p rows cols)); rewrite Zs];
    (eapply elems_of_ext; [apply zeros_elems|]); intros k _; cbn;
    change zero with (real 0); f_equal; ring.
Qed.

Lemma Update_accumulated (q : AdamUpdate xreal) (iterate : mat xreal)
    (s : xreal) (i : N) (n : nat) :
  beta1 q = real b1 -> beta2 q = real b2 ->
  has_shape iterate rows cols -> accumulated rows cols b1 b2 gr n q ->
  exists q' iterate',
    Update q iterate s g i = Some (q', iterate') /\
    same_config q q' /\ has_shape iterate' rows cols /\
    accumulated rows cols b1 b2 gr (S n) q'.
Proof.
  intros E1 E2 Si [[Sm Em] Hacc].
  pose proof (elems_of_shape g_real) as Sg.
  destruct g_real as [_ Eg].
  assert (Hfirst : forall k, (k < rows * cols)%nat ->
            first_moment q g k = real ((1 - b1 ^ S n) * gr k)).
  { intros k Hk. unfold first_moment. rewrite E1, (Em k Hk), (Eg k Hk).
    change one with (real 1).
    rewrite xsub_real, !xmul_real, xadd_real. f_equal. simpl. ring. }
  destruct (adaMax q) eqn:Hflag.
  - destruct Hacc as [Su Eu].
    destruct (@Update_adamax xreal _ q iterate s g i rows cols
                Sm Sg Hflag Su)
      as (q' & Hc & _ & Hm & Hu & Hskip & Hstep).
    assert (Hq : accumulated rows cols b1 b2 gr (S n) q').
    { destruct Hc as (_ & _ & _ & Hf). unfold accumulated. rewrite Hf, Hflag.
      split; (eapply elems_of_ext; [eassumption|]); [exact Hfirst|].
      intros k Hk. unfold infinity_norm.
      rewrite E2, (Eu k Hk), (Eg k Hk), xmul_real, xabs_real, xmax_real.
      f_equal. pose proof (Rabs_pos (gr k)).
      destruct (Nat.eqb_spec n 0); simpl; apply Rmax_left; nra. }
    destruct (neqb (sub one (pow (beta1 q) i)) zero) eqn:Hbc.
    + destruct (Hstep eq_refl Si) as (iterate' & E & Hit).
      exists q', iterate'. split; [exact E|]. split; [exact Hc|].
      split; [exact (elems_of_shape Hit)|exact Hq].
    + exists q', iterate. split; [exact (Hskip eq_refl)|]. auto.
  - destruct Hacc as [Sv Ev].
    destruct (@Update_adam xreal _ q iterate s g i rows cols
                Sm Sg Hflag Sv Si)
      as (q' & iterate' & E & Hc & _ & Hm & Hv & Hit).
    exists q', iterate'. split; [exact E|]. split; [exact Hc|].
    split; [exact (elems_of_shape Hit)|].
    destruct Hc as (_ & _ & _ & Hf). unfold accumulated. rewrite Hf, Hflag.
    split; (eapply elems_of_ext; [eassumption|]); [exact Hfirst|].
    intros k Hk. unfold second_moment. rewrite E2, (Ev k Hk), (Eg k Hk).
    change one with (real 1).
    rewrite xsub_real, !xmul_real, xadd_real. f_equal. simpl. ring.
Qed.

Lemma run_constant_gradient (ss : nat -> xreal) (p : AdamUpdate xreal)
    (params : mat xreal) (n : nat) :
  beta1 p = real b1 -> beta2 p = real b2 ->
  has_shape params rows cols ->
  exists w,
    run (constant_gradient_calls ss g n)
        (mkWorld (Initialize p rows cols) params) = Some w /\
    same_config p (policy w) /\ has_shape (parameters w) rows cols /\
    accumulated rows cols b1 b2 gr n (policy w).
Proof.
  intros E1 E2 Sp. induction n as [|n (w & E & Hc & Sw & Hacc)].
  - eexists; split; [reflexivity|]. cbn [policy parameters].
    split; [apply Initialize_same_config|].
    split; [exact Sp|apply Initialize_accumulated].
  - unfold constant_gradient_calls in *.
    rewrite seq_S, map_app. cbn [map].
    rewrite (@run_snoc xreal _ _ _ _ _ E).
    destruct Hc as (He & H1 & H2 & Hf).
    destruct (@Update_accumulated (policy w) (parameters w) (ss (1 + n)%nat)
                (N.of_nat (1 + n)) n)
      as (q' & iterate' & EU & Hc' & Si' & Hacc'); try congruence; auto.
    exists (mkWorld q' iterate'). cbn [step]. rewrite EU. cbn.
    split; [reflexivity|]. split; [|auto].
    apply same_config_trans with (q := policy w); [repeat split|]; auto.
Qed.
End ConstantGradient.

(** C8, within the convention on the decay rates.  Take a policy whose
    [beta1] and [beta2] are real numbers in [0, 1), initialise it, and call
    [Update] with one gradient [g] of real elements and the iteration
    indices 1, 2, 3, ...  Every call succeeds.  After [n] calls the first
    moment is [(1 - beta1^n) * g] element by element, so it tends to [g].
    With the flag false the second moment is [(1 - beta2^n) * (g * g)], so
    it tends to [g * g]; with the flag true the infinity norm is [|g|] from
    the first call on, so it tends to [|g|]. *)
Theorem constant_gradient_accumulators_converge
    (p : AdamUpdate xreal) (params g : mat xreal) (gr : nat -> R)
    (ss : nat -> xreal) (rows cols : nat) (b1 b2 : R) :
  beta1 p = real b1 -> (0 <= b1 < 1)%R ->
  beta2 p = real b2 -> (0 <= b2 < 1)%R ->
  has_shape params rows cols ->
  elems_of g rows cols (fun k => real (gr k)) ->
  let W n :=
    world_after (mkWorld (Initialize p rows cols) params)
                (constant_gradient_calls ss g n) in
  (forall n,
     run (constant_gradient_calls ss g n)
         (mkWorld (Initialize p rows cols) params) = Some (W n)) /\
  forall k, (k < rows * cols)%nat ->
    (forall n,
       elem (m (policy (W n))) k = real ((1 - b1 ^ n) * gr k)%R) /\
    Un_cv (fun n => real_of (elem (m (policy (W n))) k)) (gr k) /\
    (if adaMax p
     then
       (forall n, (1 <= n)%nat ->
          elem (u (policy (W n))) k = real (Rabs (gr k))) /\
       Un_cv (fun n => real_of (elem (u (policy (W n))) k)) (Rabs (gr k))
     else
       (forall n,
          elem (v (policy (W n))) k
          = real ((1 - b2 ^ n) * (gr k * gr k))%R) /\
       Un_cv (fun n => real_of (elem (v (policy (W n))) k))
         (gr k * gr k)%R).
Proof.
  intros E1 H1 E2 H2 Sp Hg W.
  assert (HW : forall n,
            run (constant_gradient_calls ss g n)
                (mkWorld (Initialize p rows cols) params) = Some (W n) /\
            adaMax (policy (W n)) = adaMax p /\
            accumulated rows cols b1 b2 gr n (policy (W n))).
  { intros n.
    destruct (@run_constant_gradient rows cols b1 b2 g gr
                (Rlt_le _ _ (proj2 H2)) Hg ss p
                params n E1 E2 Sp)
      as (w & E & (_ & _ & _ & Hf) & _ & Hacc).
    unfold W, world_after. rewrite E. auto. }
  split; [intros n; apply HW|].
  intros k Hk.
  assert (Hm : forall n,
            elem (m (policy (W n))) k = real ((1 - b1 ^ n) * gr k)%R).
  { intros n. destruct (HW n) as (_ & _ & [[_ Em] _]). apply Em, Hk. }
  split; [exact Hm|]. split.
  - intros eps Heps. destruct (decay_limit (gr k) H1 Heps) as [n0 Hn0].
    exists n0. intros n Hn. rewrite Hm. apply Hn0, Hn.
  - destruct (adaMax p) eqn:Hflag.
    + assert (Hu : forall n,
                elem (u (policy (W n))) k
                = real (if (n =? 0)%nat then 0%R else Rabs (gr k))).
      { intros n. destruct (HW n) as (_ & Hf & [_ Hacc]).
        rewrite Hf in Hacc. destruct Hacc as [_ Eu]. apply Eu, Hk. }
      split.
      * intros n Hn. rewrite Hu.
        destruct (Nat.eqb_spec n 0); [lia|reflexivity].
      * intros eps Heps.
        destruct (eventually_constant_limit (Rabs (gr k)) Heps)
          as [n0 Hn0].
        exists n0. intros n Hn. rewrite Hu. apply Hn0, Hn.
    + assert (Hv : forall n,
                elem (v (policy (W n))) k
                = real ((1 - b2 ^ n) * (gr k * gr k))%R).
      { intros n. destruct (HW n) as (_ & Hf & [_ Hacc]).
        rewrite Hf in Hacc. destruct Hacc as [_ Ev]. apply Ev, Hk. }
      split; [exact Hv|].
      intros eps Heps.
      destruct (decay_limit (gr k * gr k) H2 Heps) as [n0 Hn0].
      exists n0. intros n Hn. rewrite Hv. apply Hn0, Hn.
Qed.

Lemma constant_gradient_accumulators_converge_witness :
  (forall n,
     elem (m (policy
                (world_after
                   (mkWorld (Initialize (exact_policy false) 2 1)
                            exact_parameters)
                   (constant_gradient_calls (fun _ => real 1)
                      exact_gradient n)))) 0
     = real ((1 - (9 / 10) ^ n) * 3)%R) /\
  (forall n,
     elem (v (policy
                (world_after
                   (mkWorld (Initialize (exact_policy false) 2 1)
                            exact_parameters)
                   (constant_gradient_calls (fun _ => real 1)
                      exact_gradient n)))) 0
     = real ((1 - (1 / 2) ^ n) * (3 * 3))%R) /\
  Un_cv (fun n =>
           real_of
             (elem (v (policy
                         (world_after
                            (mkWorld (Initialize (exact_policy false) 2 1)
                                     exact_parameters)
                            (constant_gradient_calls (fun _ => real 1)
                               exact_gradient n)))) 0))
        (3 * 3)%R.
Proof.
  destruct (@constant_gradient_accumulators_converge (exact_policy false)
              exact_parameters exact_gradient
              (fun k => nth k [3; -4]%R 0%R) (fun _ => real 1) 2 1
              (9 / 10)%R (1 / 2)%R)
    as (_ & Hk); try reflexivity; try lra.
  - repeat split; reflexivity.
  - split; [repeat split; reflexivity|].
    intros [|[|k]] Hk; try reflexivity. simpl in Hk; lia.
  - destruct (Hk 0%nat) as (Hm & _ & Hv & Hcv); [simpl; lia|].
    split; [exact Hm|]. split; [exact Hv|exact Hcv].
Defined.

(** C8, as stated, fails: [beta2 = 1] is a value the constructor accepts,
    and then the second moment never leaves zero.  On such a policy,
    initialised for 2 x 1, every call with the gradient (3, -4) succeeds,
    and after any number of calls the first element of the second moment is
    0; it does not tend to [3 * 3]. *)
Lemma constant_gradient_beta2_one_no_convergence :
  (forall n,
     exists w,
       run (constant_gradient_calls (fun _ => real 1) exact_gradient n)
           (mkWorld (Initialize exact_policy_beta2_one 2 1) exact_parameters)
         = Some w /\
       elem (v (policy w)) 0 = real 0) /\
  ~ Un_cv (fun n =>
             real_of
               (elem (v (policy
                           (world_after
                              (mkWorld (Initialize exact_policy_beta2_one 2 1)
                                       exact_parameters)
                              (constant_gradient_calls (fun _ => real 1)
                                 exact_gradient n)))) 0))
          (3 * 3)%R.
Proof.
  assert (Hg : elems_of exact_gradient 2 1
                 (fun k => real (nth k [3; -4]%R 0%R))).
  { split; [repeat split; reflexivity|].
    intros [|[|k]] Hk; try reflexivity. simpl in Hk; lia. }
  assert (Hrun : forall n,
            exists w,
              run (constant_gradient_calls (fun _ => real 1) exact_gradient n)
                  (mkWorld (Initialize exact_policy_beta2_one 2 1)
                           exact_parameters) = Some w /\
              elem (v (policy w)) 0 = real 0).
  { intros n.
    destruct (@run_constant_gradient 2 1 (9 / 10)%R 1%R exact_gradient
                (fun k => nth k [3; -4]%R 0%R) (Rle_refl 1) Hg
                (fun _ => real 1) exact_policy_beta2_one exact_parameters n)
      as (w & E & (_ & _ & _ & Hf) & _ & [_ Hacc]);
      try reflexivity; [repeat split; reflexivity|].
    exists w. split; [exact E|].
    rewrite Hf in Hacc. cbn [adaMax exact_policy_beta2_one construct] in Hacc.
    destruct Hacc as [_ Ev]. rewrite (Ev 0%nat) by (simpl; lia).
    unfold real. f_equal. rewrite pow1. simpl. ring. }
  split; [exact Hrun|].
  intros Hcv. destruct (Hcv 1%R) as [n0 Hn0]; [lra|].
  specialize (Hn0 n0 (Nat.le_refl n0)).
  destruct (Hrun n0) as (w & E & Ev).
  unfold world_after in Hn0. rewrite E, Ev in Hn0.
  unfold Rdist, Rabs in Hn0. cbn [real_of real] in Hn0.
  destruct (Rcase_abs (0 - 3 * 3)) in Hn0; lra.
Qed.

(** * Further properties, for every arithmetic *)

Section Loop.
Context {T : Type} `{Scalar T}.
Local Open Scope scalar_scope.

Lemma Update_accumulate (p q : AdamUpdate T) (iterate iterate' : mat T)
    (stepSize : T) (gradient : mat T) (i : N) :
  Update p iterate stepSize gradient i = Some (q, iterate') ->
  accumulate p gradient = Some q.
Proof.
  unfold Update, accumulate.
  cbn [with_m with_u with_v m u v adaMax beta1 beta2 epsilon].
  destruct (inplace_plus _ _) as [m'|]; cbn [bind]; [|discriminate].
  cbn [with_m with_u with_v m u v adaMax beta1 beta2 epsilon].
  destruct (adaMax p) eqn:F.
  - destruct (arma_max _ _) as [u'|]; cbn [bind]; [|discriminate].
    cbn [with_m with_u with_v m u v adaMax beta1 beta2 epsilon]. rewrite F.
    destruct (neqb _ _).
    + destruct (elem_div _ _) as [d|]; cbn [bind]; [|discriminate].
      destruct (inplace_minus _ _) as [it|]; cbn [bind]; [|discriminate].
      intros E; injection E as <- _. unfold with_u, with_m; cbn.
      rewrite F. reflexivity.
    + intros E; injection E as <- _. unfold with_u, with_m; cbn.
      rewrite F. reflexivity.
  - destruct (schur _ _) as [gg|]; cbn [bind]; [|discriminate].
    destruct (inplace_plus _ _) as [v'|]; cbn [bind]; [|discriminate].
    cbn [with_m with_u with_v m u v adaMax beta1 beta2 epsilon]. rewrite F.
    destruct (elem_div _ _) as [d|]; cbn [bind]; [|discriminate].
    destruct (inplace_minus _ _) as [it|]; cbn [bind]; [|discriminate].
    intros E; injection E as <- _. unfold with_v, with_m; cbn.
    rewrite F. reflexivity.
Qed.

Lemma accumulate_frame (p q : AdamUpdate T) (gradient : mat T) :
  accumulate p gradient = Some q ->
  same_config p q /\ (if adaMax p then v q = v p else u q = u p).
Proof.
  unfold accumulate.
  destruct (inplace_plus _ _) as [m'|]; cbn [bind]; [|discriminate].
  destruct (adaMax p) eqn:F.
  - destruct (arma_max _ _) as [u'|]; cbn [bind]; [|discriminate].
    intros E; injection E as <-. repeat split.
  - destruct (schur _ _) as [gg|]; cbn [bind]; [|discriminate].
    destruct (inplace_plus _ _) as [v'|]; cbn [bind]; [|discriminate].
    intros E; injection E as <-. repeat split.
Qed.

Lemma mat_zip_defined (f : T -> T -> T) (A B : mat T) :
  (exists C, mat_zip f A B = Some C) <-> same_size A B = true.
Proof.
  unfold mat_zip. destruct (same_size A B); split; intros E; eauto;
    [destruct E; discriminate|discriminate].
Qed.

Lemma same_size_dims (A B : mat T) :
  same_size A B = true <-> n_rows A = n_rows B /\ n_cols A = n_cols B.
Proof.
  unfold same_size. rewrite andb_true_iff, !Nat.eqb_eq. reflexivity.
Qed.

Ltac size_cases :=
  cbn [andb bind];
  split;
  [ intros (?q & ?it' & ?E); try discriminate; repeat split; auto;
    try discriminate
  | intros ?Hs; decompose [and] Hs; try discriminate;
    try match goal with
        | Hi : ?a = ?a -> false = true |- _ => discriminate (Hi eq_refl)
        end;
    try (eexists _, _; reflexivity) ].

(** X1.  [Update] passes Armadillo's size checks exactly when the sizes it
    compares agree: the first moment and the accumulator of the variant with
    the gradient, and [iterate] with the gradient unless the AdaMax branch
    skips its statement.  Otherwise it fails. *)
Theorem Update_defined_iff (p : AdamUpdate T) (iterate : mat T) (stepSize : T)
    (gradient : mat T) (i : N) :
  (exists q iterate', Update p iterate stepSize gradient i = Some (q, iterate'))
  <-> sizes_agree p iterate gradient i.
Proof.
  unfold sizes_agree, Update.
  unfold inplace_plus, inplace_minus, schur, elem_div, arma_max, arma_abs,
    arma_sqrt, plus_scalar, scalar_times, inplace_times, mat_zip, mat_map,
    same_size.
  cbn [with_m with_u with_v m u v adaMax beta1 beta2 epsilon
       n_rows n_cols mem].
  destruct (Nat.eqb_spec (n_rows (m p)) (n_rows gradient)) as [Rm|Rm];
  destruct (Nat.eqb_spec (n_cols (m p)) (n_cols gradient)) as [Cm|Cm];
    try solve [size_cases].
  cbn [andb bind with_m with_u with_v m u v adaMax beta1 beta2 epsilon
       n_rows n_cols mem].
  rewrite !Nat.eqb_refl.
  destruct (adaMax p) eqn:F.
  - destruct (Nat.eqb_spec (n_rows (u p)) (n_rows gradient)) as [Ru|Ru];
    destruct (Nat.eqb_spec (n_cols (u p)) (n_cols gradient)) as [Cu|Cu];
      try solve [size_cases].
    cbn [andb bind with_m with_u with_v m u v adaMax beta1 beta2 epsilon
         n_rows n_cols mem].
    rewrite F, Rm, Cm, Ru, Cu, !Nat.eqb_refl.
    destruct (neqb _ _); [|solve [size_cases]].
    cbn [andb bind n_rows n_cols mem].
    destruct (Nat.eqb_spec (n_rows iterate) (n_rows gradient)) as [Ri|Ri];
    destruct (Nat.eqb_spec (n_cols iterate) (n_cols gradient)) as [Ci|Ci];
      solve [size_cases].
  - cbn [andb bind with_m with_u with_v m u v adaMax beta1 beta2 epsilon
         n_rows n_cols mem].
    destruct (Nat.eqb_spec (n_rows (v p)) (n_rows gradient)) as [Rv|Rv];
    destruct (Nat.eqb_spec (n_cols (v p)) (n_cols gradient)) as [Cv|Cv];
      try solve [size_cases].
    cbn [andb bind with_m with_u with_v m u v adaMax beta1 beta2 epsilon
         n_rows n_cols mem].
    rewrite F, Rm, Cm, Rv, Cv, !Nat.eqb_refl.
    cbn [andb bind n_rows n_cols mem].
    destruct (Nat.eqb_spec (n_rows iterate) (n_rows gradient)) as [Ri|Ri];
    destruct (Nat.eqb_spec (n_cols iterate) (n_cols gradient)) as [Ci|Ci];
      solve [size_cases].
Qed.

Lemma Update_first_check (p : AdamUpdate T) (iterate : mat T) (stepSize : T)
    (gradient : mat T) (i : N) :
  same_size (m p) gradient = false ->
  Update p iterate stepSize gradient i = None.
Proof.
  intros E. unfold Update, inplace_plus, inplace_times, scalar_times, mat_zip,
    mat_map, same_size in *.
  cbn [with_m m n_rows n_cols mem]. rewrite E. reflexivity.
Qed.

Lemma Update_second_check (p : AdamUpdate T) (iterate : mat T) (stepSize : T)
    (gradient : mat T) (i : N) :
  same_size (if adaMax p then u p else v p) gradient = false ->
  Update p iterate stepSize gradient i = None.
Proof.
  intros E. unfold Update.
  cbn [with_m with_u with_v m u v adaMax beta1 beta2 epsilon].
  destruct (inplace_plus _ _) as [m'|]; cbn [bind]; [|reflexivity].
  cbn [with_m with_u with_v m u v adaMax beta1 beta2 epsilon].
  unfold arma_max, arma_abs, schur, inplace_plus, inplace_times, scalar_times,
    mat_zip, mat_map, same_size in *.
  destruct (adaMax p); cbn [n_rows n_cols mem] in *.
  - rewrite E. reflexivity.
  - rewrite !Nat.eqb_refl. cbn [andb bind n_rows n_cols mem].
    rewrite E. reflexivity.
Qed.

(** X2.  A policy that has been constructed but not initialised holds 0 x 0
    accumulators: [Update] with a gradient that is not 0 x 0 fails its first
    size check, in either variant. *)
Theorem Update_before_Initialize (epsilon beta1 beta2 : T) (flag : bool)
    (iterate : mat T) (stepSize : T) (gradient : mat T) (i : N) :
  n_rows gradient <> 0%nat \/ n_cols gradient <> 0%nat ->
  Update (construct epsilon beta1 beta2 flag) iterate stepSize gradient i
  = None.
Proof.
  intros Hg. apply Update_first_check. unfold same_size; cbn.
  destruct (n_rows gradient), (n_cols gradient); cbn; try reflexivity.
  destruct Hg as [Hg|Hg]; now elim Hg.
Qed.

(** X3.  [Initialize] allocates the accumulator of the current variant only.
    When a policy is constructed, initialised for a shape that is not 0 x 0,
    and the flag is then assigned the other value, [Update] with a gradient
    of that shape fails: the accumulator of the new variant is still 0 x 0. *)
Theorem Update_after_flag_change (epsilon beta1 beta2 : T) (flag : bool)
    (rows cols : nat) (iterate : mat T) (stepSize : T) (gradient : mat T)
    (i : N) :
  has_shape gradient rows cols ->
  rows <> 0%nat \/ cols <> 0%nat ->
  Update
    (set_AdaMax (Initialize (construct epsilon beta1 beta2 flag) rows cols)
                (negb flag))
    iterate stepSize gradient i
  = None.
Proof.
  intros (Rg & Cg & _) Hd. apply Update_second_check.
  unfold same_size. destruct flag; cbn; rewrite Rg, Cg;
    destruct rows, cols; cbn; try reflexivity;
    destruct Hd as [Hd|Hd]; now elim Hd.
Qed.

Lemma Initialize_ready (p : AdamUpdate T) (rows cols : nat) :
  ready rows cols (Initialize p rows cols).
Proof.
  unfold ready, Initialize; cbn [with_m adaMax].
  destruct (adaMax p) eqn:F; cbn; rewrite F; split; apply zeros_shape.
Qed.

Lemma Update_ready (p : AdamUpdate T) (iterate : mat T) (stepSize : T)
    (gradient : mat T) (i : N) (rows cols : nat) :
  ready rows cols p -> has_shape iterate rows cols ->
  has_shape gradient rows cols ->
  exists q iterate',
    Update p iterate stepSize gradient i = Some (q, iterate') /\
    ready rows cols q /\ has_shape iterate' rows cols /\
    adaMax q = adaMax p.
Proof.
  intros [Sm Sa] Si Sg. destruct (adaMax p) eqn:F.
  - destruct (@Update_adamax T _ p iterate stepSize gradient i rows cols
                Sm Sg F Sa)
      as (q & (_ & _ & _ & Hf) & _ & [Sm' _] & [Su' _] & Hskip & Hstep).
    assert (Hq : ready rows cols q) by (unfold ready; rewrite Hf, F; auto).
    rewrite F in Hf.
    destruct (neqb (one - pow (beta1 p) i) zero) eqn:Hbc.
    + destruct (Hstep eq_refl Si) as (iterate' & E & [Si' _]).
      exists q, iterate'. auto.
    + exists q, iterate. auto.
  - destruct (@Update_adam T _ p iterate stepSize gradient i rows cols
                Sm Sg F Sa Si)
      as (q & iterate' & E & (_ & _ & _ & Hf) & _ & [Sm' _] & [Sv' _]
          & [Si' _]).
    assert (Hq : ready rows cols q) by (unfold ready; rewrite Hf, F; auto).
    rewrite F in Hf. exists q, iterate'. auto.
Qed.

Lemma run_loop (rows cols : nat) (cs : list call) :
  Forall (loop_call rows cols) cs ->
  forall w : World,
    ready rows cols (policy w) -> has_shape (parameters w) rows cols ->
    exists w',
      run cs w = Some w' /\
      ready rows cols (policy w') /\ has_shape (parameters w') rows cols /\
      adaMax (policy w') = adaMax (policy w).
Proof.
  induction 1 as [|c cs Hc _ IH]; intros w Hr Sp.
  - exists w. auto.
  - assert (Hstep : exists w1,
              step c w = Some w1 /\ ready rows cols (policy w1) /\
              has_shape (parameters w1) rows cols /\
              adaMax (policy w1) = adaMax (policy w)).
    { destruct c as [r c'|s g i|x|x|x|x]; cbn in Hc; try contradiction.
      - destruct Hc as [-> ->]. eexists; split; [reflexivity|]. cbn.
        split; [apply Initialize_ready|]. split; [exact Sp|].
        apply (Initialize_same_config (policy w) rows cols).
      - destruct (@Update_ready (policy w) (parameters w) s g i rows cols
                    Hr Sp Hc)
          as (q & iterate' & E & Hq & Si & Hf).
        exists (mkWorld q iterate'). cbn [step]. rewrite E. cbn. auto.
      - eexists; split; [reflexivity|]. cbn. auto.
      - eexists; split; [reflexivity|]. cbn. auto.
      - eexists; split; [reflexivity|]. cbn. auto. }
    destruct Hstep as (w1 & E1 & Hr1 & Sp1 & Hf1).
    destruct (IH w1 Hr1 Sp1) as (w' & E' & Hr' & Sp' & Hf').
    exists w'. cbn [run]. rewrite E1. cbn [bind].
    split; [exact E'|]. split; [exact Hr'|]. split; [exact Sp'|]. congruence.
Qed.

(** X4.  Once [Initialize rows cols] has been called, whatever the policy
    held before, a loop on a [rows] x [cols] parameter matrix never fails a
    size check: any sequence of [Update] calls with [rows] x [cols]
    gradients, further [Initialize rows cols] calls and assignments of
    [epsilon], [beta1] and [beta2] runs to its end, leaves the accumulators
    in use and the parameters [rows] x [cols], and leaves the flag as it
    was. *)
Theorem loop_never_fails (rows cols : nat) (cs : list call) (w : World) :
  has_shape (parameters w) rows cols ->
  Forall (loop_call rows cols) cs ->
  exists w',
    run (CallInitialize rows cols :: cs) w = Some w' /\
    ready rows cols (policy w') /\ has_shape (parameters w') rows cols /\
    adaMax (policy w') = adaMax (policy w).
Proof.
  intros Sp Hcs. cbn [run step bind].
  destruct (run_loop Hcs
              (mkWorld (Initialize (policy w) rows cols) (parameters w))
              (Initialize_ready (policy w) rows cols) Sp)
    as (w' & E & Hr & Sp' & Hf).
  exists w'. split; [exact E|]. split; [exact Hr|]. split; [exact Sp'|].
  rewrite Hf. apply (Initialize_same_config (policy w) rows cols).
Qed.

(** X5.  The accumulators that [Update] leaves depend on the policy and the
    gradient only: two calls on the same policy with the same gradient,
    whatever their parameter matrices, step sizes and iteration indices,
    leave the same policy. *)
Theorem Update_accumulators_independent
    (p q1 q2 : AdamUpdate T) (gradient : mat T)
    (iterate1 iterate1' iterate2 iterate2' : mat T)
    (stepSize1 stepSize2 : T) (i1 i2 : N) :
  Update p iterate1 stepSize1 gradient i1 = Some (q1, iterate1') ->
  Update p iterate2 stepSize2 gradient i2 = Some (q2, iterate2') ->
  q1 = q2.
Proof.
  intros E1 E2. apply Update_accumulate in E1, E2. congruence.
Qed.

(** X6.  A call of [Update] that succeeds never changes the configuration,
    and never touches the accumulator of the other variant: the second
    moment when [adaMax] is true, the infinity norm when it is false. *)
Theorem Update_frame (p q : AdamUpdate T) (iterate iterate' : mat T)
    (stepSize : T) (gradient : mat T) (i : N) :
  Update p iterate stepSize gradient i = Some (q, iterate') ->
  same_config p q /\ (if adaMax p then v q = v p else u q = u p).
Proof.
  intros E. apply accumulate_frame with (gradient := gradient).
  eapply Update_accumulate, E.
Qed.

Lemma Initialize_forgets (p q : AdamUpdate T) (rows cols : nat) :
  same_config p q -> (if adaMax p then v q = v p else u q = u p) ->
  Initialize q rows cols = Initialize p rows cols.
Proof.
  destruct p as [e b1 b2 f pm pu pv], q as [e' b1' b2' f' qm qu qv].
  unfold same_config, Initialize; cbn. intros (-> & -> & -> & ->).
  destruct f; intros ->; reflexivity.
Qed.

Lemma step_forgets (c : call) (w w' : World) :
  is_assignment c = false -> step c w = Some w' ->
  same_config (policy w) (policy w') /\
  (if adaMax (policy w) then v (policy w') = v (policy w)
   else u (policy w') = u (policy w)).
Proof.
  destruct c as [r c'|s g i|x|x|x|x]; try discriminate; intros _; cbn [step].
  - intros E; injection E as <-. cbn [policy].
    split; [apply Initialize_same_config|].
    unfold Initialize; cbn [with_m adaMax]. destruct (adaMax (policy w));
      reflexivity.
  - destruct (Update _ _ _ _ _) as [[q it']|] eqn:E; [|discriminate].
    cbn. intros E'; injection E' as <-. cbn [policy].
    apply accumulate_frame with (gradient := g).
    eapply Update_accumulate, E.
Qed.

(** X7.  [Initialize] resets the policy: after any sequence of [Update] and
    [Initialize] calls that succeeded, [Initialize rows cols] leaves exactly
    the policy that it would have left had none of them been made. *)
Theorem Initialize_resets (cs : list call) (w w' : World) (rows cols : nat) :
  forallb (fun c => negb (is_assignment c)) cs = true ->
  run cs w = Some w' ->
  Initialize (policy w') rows cols = Initialize (policy w) rows cols.
Proof.
  revert w. induction cs as [|c cs IH]; intros w Hcs E.
  - injection E as <-. reflexivity.
  - cbn [forallb] in Hcs. apply andb_true_iff in Hcs as [Hc Hcs].
    apply negb_true_iff in Hc. cbn [run] in E.
    destruct (step c w) as [w1|] eqn:E1; [|discriminate]. cbn [bind] in E.
    rewrite (IH w1 Hcs E).
    destruct (step_forgets c w Hc E1) as [Hcfg Hfr].
    apply Initialize_forgets; assumption.
Qed.
End Loop.

(** * Further properties on binary64 *)

Lemma Update_before_Initialize_witness :
  Update (construct default_epsilon default_beta1 default_beta2 false)
    sample_parameters sample_stepSize sample_gradient 1%N = None.
Proof.
  apply (@Update_before_Initialize float _ default_epsilon default_beta1
           default_beta2 false sample_parameters sample_stepSize
           sample_gradient 1%N).
  left. cbn. discriminate.
Defined.

Lemma Update_after_flag_change_witness :
  Update (set_AdaMax (sample_policy false) true)
    sample_parameters sample_stepSize sample_gradient 1%N = None.
Proof.
  apply (@Update_after_flag_change float _ default_epsilon default_beta1
           default_beta2 false 2 1 sample_parameters sample_stepSize
           sample_gradient 1%N).
  - repeat split; reflexivity.
  - left. discriminate.
Defined.

Lemma loop_never_fails_witness :
  exists w',
    run (CallInitialize 2 1
         :: [CallUpdate sample_stepSize sample_gradient 1%N;
             AssignBeta1 0.5%float;
             CallUpdate sample_stepSize sample_gradient 1%N;
             CallInitialize 2 1;
             CallUpdate sample_stepSize sample_gradient 1%N])
        (mkWorld (construct default_epsilon default_beta1 default_beta2 true)
                 sample_parameters) = Some w' /\
    ready 2 1 (policy w') /\ has_shape (parameters w') 2 1 /\
    adaMax (policy w') = true.
Proof.
  apply (@loop_never_fails float _ 2 1
           [CallUpdate sample_stepSize sample_gradient 1%N;
            AssignBeta1 0.5%float;
            CallUpdate sample_stepSize sample_gradient 1%N;
            CallInitialize 2 1;
            CallUpdate sample_stepSize sample_gradient 1%N]
           (mkWorld
              (construct default_epsilon default_beta1 default_beta2 true)
              sample_parameters)).
  - repeat split; reflexivity.
  - repeat constructor; cbn; repeat split; reflexivity.
Defined.

Lemma Update_accumulators_independent_witness :
  match Update (sample_policy false) sample_parameters sample_stepSize
          sample_gradient 1%N,
        Update (sample_policy false) (zeros 2 1) 0.25%float
          sample_gradient 0%N
  with
  | Some (q1, _), Some (q2, _) => q1 = q2
  | _, _ => False
  end.
Proof.
  destruct (Update (sample_policy false) sample_parameters sample_stepSize
              sample_gradient 1%N) as [[q1 it1]|] eqn:E1;
    [|vm_compute in E1; discriminate].
  destruct (Update (sample_policy false) (zeros 2 1) 0.25%float
              sample_gradient 0%N) as [[q2 it2]|] eqn:E2;
    [|vm_compute in E2; discriminate].
  exact (@Update_accumulators_independent float _ _ _ _ _ _ _ _ _ _ _ _ _
           E1 E2).
Defined.

Lemma Update_frame_witness :
  match Update (sample_policy true) sample_parameters sample_stepSize
          sample_gradient 1%N
  with
  | Some (q, _) =>
      same_config (sample_policy true) q /\ v q = v (sample_policy true)
  | None => False
  end.
Proof.
  destruct (Update (sample_policy true) sample_parameters sample_stepSize
              sample_gradient 1%N) as [[q it']|] eqn:E;
    [|vm_compute in E; discriminate].
  exact (@Update_frame float _ _ _ _ _ _ _ _ E).
Defined.

Lemma Initialize_resets_witness :
  match run [CallInitialize 2 1;
             CallUpdate sample_stepSize sample_gradient 1%N;
             CallUpdate sample_stepSize sample_gradient 1%N]
            (mkWorld
               (construct default_epsilon default_beta1 default_beta2 false)
               sample_parameters)
  with
  | Some w' =>
      Initialize (policy w') 3 3
      = Initialize
          (construct default_epsilon default_beta1 default_beta2 false) 3 3
  | None => False
  end.
Proof.
  destruct (run [CallInitialize 2 1;
                 CallUpdate sample_stepSize sample_gradient 1%N;
                 CallUpdate sample_stepSize sample_gradient 1%N]
                (mkWorld
                   (construct default_epsilon default_beta1 default_beta2
                      false)
                   sample_parameters)) as [w'|] eqn:E;
    [|vm_compute in E; discriminate].
  exact (@Initialize_resets float _
           [CallInitialize 2 1;
            CallUpdate sample_stepSize sample_gradient 1%N;
            CallUpdate sample_stepSize sample_gradient 1%N]
           _ _ 3 3 eq_refl E).
Defined.

(** ** NaN *)

Lemma times_nan (x : float) : PrimFloat.mul x nan = nan.
Proof. rewrite float_mul_comm. apply nan_times. Qed.

Lemma nan_plus (x : float) : PrimFloat.add nan x = nan.
Proof.
  apply Prim2SF_inj. rewrite add_spec.
  change (Prim2SF nan) with S754_nan. reflexivity.
Qed.

Lemma plus_nan (x : float) : PrimFloat.add x nan = nan.
Proof.
  apply Prim2SF_inj. rewrite add_spec.
  change (Prim2SF nan) with S754_nan.
  destruct (Prim2SF x) as [sg|sg| |sg mx ex]; reflexivity.
Qed.

(** A first moment computed from a NaN, in the old moment or in the
    gradient, is NaN. *)
Lemma first_moment_nan (p : AdamUpdate float) (gradient : mat float)
    (k : nat) :
  elem (m p) k = nan \/ elem gradient k = nan ->
  first_moment p gradient k = nan.
Proof.
  unfold first_moment.
  change (elem (m p) k = nan \/ elem gradient k = nan ->
          PrimFloat.add (PrimFloat.mul (elem (m p) k) (beta1 p))
            (PrimFloat.mul (PrimFloat.sub 1 (beta1 p)) (elem gradient k))
          = nan).
  intros [-> | ->].
  - rewrite nan_times. apply nan_plus.
  - rewrite times_nan. apply plus_nan.
Qed.

(** The parameter that the last statement of either branch computes from a
    NaN first moment is NaN. *)
Lemma parameter_nan (param factor denominator : float) :
  (param - (factor * nan) / denominator)%sc = nan.
Proof.
  change (PrimFloat.sub param
            (PrimFloat.div (PrimFloat.mul factor nan) denominator) = nan).
  rewrite times_nan, nan_over. apply minus_nan.
Qed.

(** X8.  On binary64 a NaN is permanent.  When element [k] of the gradient
    or of the first moment is NaN, [Update] leaves element [k] of the first
    moment NaN, so it stays NaN in every later call whatever the gradients
    are; and unless the AdaMax branch skips its statement, parameter [k] is
    NaN after the call. *)
Theorem NaN_is_permanent
    (p : AdamUpdate float) (iterate : mat float) (stepSize : float)
    (gradient : mat float) (i : N) (rows cols k : nat) :
  ready rows cols p ->
  has_shape iterate rows cols -> has_shape gradient rows cols ->
  (k < rows * cols)%nat ->
  elem (m p) k = nan \/ elem gradient k = nan ->
  exists q iterate',
    Update p iterate stepSize gradient i = Some (q, iterate') /\
    elem (m q) k = nan /\
    (adaMax p = false \/ neqb (sub one (pow (beta1 p) i)) zero = true ->
     elem iterate' k = nan).
Proof.
  intros [Sm Sa] Si Sg Hk Hnan.
  pose proof (first_moment_nan p gradient k Hnan) as Hfm.
  destruct (adaMax p) eqn:F.
  - destruct (@Update_adamax float _ p iterate stepSize gradient i rows cols
                Sm Sg F Sa)
      as (q & _ & _ & [_ Em] & _ & Hskip & Hstep).
    destruct (neqb (sub one (pow (beta1 p) i)) zero) eqn:Hbc.
    + destruct (Hstep eq_refl Si) as (iterate' & E & [_ Ei]).
      exists q, iterate'. split; [exact E|].
      split; [rewrite (Em k Hk); exact Hfm|].
      intros _. rewrite (Ei k Hk), Hfm. apply parameter_nan.
    + exists q, iterate. split; [exact (Hskip eq_refl)|].
      split; [rewrite (Em k Hk); exact Hfm|].
      intros [Hf|Hf]; discriminate.
  - destruct (@Update_adam float _ p iterate stepSize gradient i rows cols
                Sm Sg F Sa Si)
      as (q & iterate' & E & _ & _ & [_ Em] & _ & [_ Ei]).
    exists q, iterate'. split; [exact E|].
    split; [rewrite (Em k Hk); exact Hfm|].
    intros _. rewrite (Ei k Hk), Hfm. apply parameter_nan.
Qed.

Lemma NaN_is_permanent_witness :
  exists q iterate',
    Update (sample_policy false) sample_parameters sample_stepSize
      (Mat 2 1 [0.5%float; nan]) 1%N = Some (q, iterate') /\
    elem (m q) 1 = nan /\ elem iterate' 1 = nan.
Proof.
  destruct (@NaN_is_permanent (sample_policy false) sample_parameters
              sample_stepSize (Mat 2 1 [0.5%float; nan]) 1%N 2 1 1)
    as (q & iterate' & E & Hm & Hi);
    try (repeat split; reflexivity); try (simpl; lia).
  - right. reflexivity.
  - exists q, iterate'. split; [exact E|]. split; [exact Hm|].
    apply Hi. left. reflexivity.
Defined.

(** * Further properties in exact arithmetic *)

Section RealSteps.
Local Open Scope R_scope.

Variables (p : AdamUpdate xreal) (iterate gradient : mat xreal).
Variables (rows cols : nat) (e b1 b2 s : R) (i : N).
Variables (fm fa gr fp : nat -> R).

Hypothesis epsilon_real : epsilon p = real e.
Hypothesis epsilon_positive : 0 < e.
Hypothesis beta1_real : beta1 p = real b1.
Hypothesis beta1_range : 0 <= b1 < 1.
Hypothesis beta2_real : beta2 p = real b2.
Hypothesis beta2_range : 0 <= b2 < 1.
Hypothesis index_positive : (1 <= i)%N.
Hypothesis m_real : elems_of (m p) rows cols (fun k => real (fm k)).
Hypothesis gradient_real : elems_of gradient rows cols (fun k => real (gr k)).
Hypothesis iterate_real : elems_of iterate rows cols (fun k => real (fp k)).
Hypothesis accumulator_nonnegative :
  forall k, (k < rows * cols)%nat -> 0 <= fa k.



End RealSteps.

Section RealRuns.
Local Open Scope R_scope.

Variables (Pm Pv Pu Pg : R -> Prop) (rows cols : nat) (e b1 b2 : R).

Hypothesis epsilon_positive : 0 < e.
Hypothesis beta1_range : 0 <= b1 < 1.
Hypothesis beta2_range : 0 <= b2 < 1.
Hypothesis first_moment_closed :
  forall x y, Pm x -> Pg y -> Pm (x * b1 + (1 - b1) * y).
Hypothesis second_moment_closed :
  forall x y, Pv x -> Pg y -> Pv (x * b2 + (1 - b2) * (y * y)).
Hypothesis infinity_norm_closed :
  forall x y, Pu x -> Pg y -> Pu (Rmax (Rabs y) (x * b2)).
Hypothesis second_moment_nonnegative : forall x, Pv x -> 0 <= x.




End RealRuns.

Section RealBounds.
Local Open Scope R_scope.







End RealBounds.



Section FirstStep.
Local Open Scope R_scope.

Variables (p : AdamUpdate xreal) (params gradient : mat xreal).
Variables (rows cols : nat) (e b1 b2 s : R) (gr fp : nat -> R).

Hypothesis epsilon_real : epsilon p = real e.
Hypothesis epsilon_positive : 0 < e.
Hypothesis beta1_real : beta1 p = real b1.
Hypothesis beta1_range : 0 <= b1 < 1.
Hypothesis beta2_real : beta2 p = real b2.
Hypothesis beta2_range : 0 <= b2 < 1.
Hypothesis gradient_real : elems_of gradient rows cols (fun k => real (gr k)).
Hypothesis params_real : elems_of params rows cols (fun k => real (fp k)).


End FirstStep.

(** ** The sample problem in exact arithmetic *)










(** ** The guard of the AdaMax branch on binary64 *)

(** [std::pow(1.0, y)] is [1.0] for every [y]; so is the model. *)
Lemma pow_uint_one (i : N) : pow_uint 1 i = 1%float.
Proof.
  unfold pow_uint.
  apply N.iter_invariant with (Inv := fun x => x = 1%float);
    [|reflexivity].
  intros x ->. reflexivity.
Qed.

(** X13.  With [beta1 = 1.0] the first bias correction is 0 at every
    iteration index, so on binary64 the AdaMax branch skips its statement in
    every call: [Update] succeeds (accumulators and gradient of one shape)
    and returns the parameter matrix as it was, whatever the index, the
    step size and the gradient. *)
Theorem AdaMax_beta1_one_never_moves
    (p : AdamUpdate float) (iterate : mat float) (stepSize : float)
    (gradient : mat float) (i : N) (rows cols : nat) :
  adaMax p = true -> beta1 p = 1%float ->
  has_shape (m p) rows cols -> has_shape (u p) rows cols ->
  has_shape gradient rows cols ->
  exists q, Update p iterate stepSize gradient i = Some (q, iterate).
Proof.
  intros F E1 Sm Su Sg.
  destruct (@Update_adamax float _ p iterate stepSize gradient i rows cols
              Sm Sg F Su)
    as (q & _ & _ & _ & _ & Hskip & _).
  exists q. apply Hskip. rewrite E1.
  change (negb (PrimFloat.eqb (PrimFloat.sub 1 (pow_uint 1 i)) 0) = false).
  rewrite pow_uint_one. reflexivity.
Qed.

Lemma AdaMax_beta1_one_never_moves_witness :
  exists q,
    Update (set_Beta1 (sample_policy true) 1%float) sample_parameters
      sample_stepSize sample_gradient 7%N = Some (q, sample_parameters).
Proof.
  apply (@AdaMax_beta1_one_never_moves
           (set_Beta1 (sample_policy true) 1%float) sample_parameters
           sample_stepSize sample_gradient 7%N 2 1);
    try reflexivity; repeat split; reflexivity.
Defined.
